(** * Keyword extraction by fixed-window co-occurrence (TextRank notebook)

    A shallow embedding of the keyword-summarization cells of the text
    summarization notebook: the unigram, digram and trigram windowing, the
    three co-occurrence (adjacency) builders and the top-5 reporter.

    The tokenizer/tagger, the data frame, the sort and the ranking engine
    are library code.  What the notebook relies on is modelled as follows.

    - A parsed document is the list of its tokens.  A token is a view on a
      position of its document; its [==] and [hash] are by position and its
      [<] compares positions.  Here a token carries its position [tok_i]
      next to its tagged word, so that Leibniz equality on tokens of one
      document is equality of positions.
    - A span [doc[a:b]] is the list of the tokens it covers; two non-empty
      spans of one document are equal iff they start and end at the same
      place, and [<] on spans compares their starts.
    - A data frame is a dense integer matrix with a list of row labels and a
      list of column labels; label-based selection [.loc] addresses every
      cell whose labels match.
    - A [set] is a [gset]; its iteration order is the one of [elements].
    - [sorted] is a stable sort that uses only [<].

    The file also covers the sentence cell of the same notebook (the best
    ranked sentence) and the split into training and test rows of the
    regression notebook. *)

From stdpp Require Import gmap strings list sorting lexico.
From Stdlib Require Import ZArith Lia.

Local Open Scope Z_scope.

(** ** Python sequences *)

Module Py.

(** Index normalisation of a slice bound: a negative bound counts from the
    end, and every bound is clamped to [0 .. len]. *)
Definition norm_index (len k : Z) : Z :=
  if decide (k < 0) then Z.max 0 (k + len) else Z.min k len.

(** [l[lo:hi]] *)
Definition slice {A} (l : list A) (lo hi : Z) : list A :=
  let len := Z.of_nat (length l) in
  let a := norm_index len lo in
  let b := norm_index len hi in
  take (Z.to_nat (b - a)) (drop (Z.to_nat a) l).

(** [l[:hi]] *)
Definition slice_to {A} (l : list A) (hi : Z) : list A := slice l 0 hi.

(** [enumerate(l)] *)
Definition enumerate {A} (l : list A) : list (nat * A) := imap pair l.

(** [range(n)] *)
Definition range (n : nat) : list nat := seq 0 n.

(** [any([f(x) for x in l])] *)
Definition any {A} (f : A → bool) (l : list A) : bool := existsb f l.

(** [x in l] for a list [l]. *)
Definition contains {A} `{EqDecision A} (x : A) (l : list A) : bool :=
  bool_decide (x ∈ l).

(** A list comprehension with a condition that can raise: [None] stands
    for the exception. *)
Fixpoint comprehension {A} (cond : A → option bool) (l : list A)
  : option (list A) :=
  match l with
  | [] => Some []
  | x :: l' =>
      b ← cond x;
      r ← comprehension cond l';
      Some (if b : bool then x :: r else r)
  end.

End Py.

(** ** Tokens, documents and spans *)

(** What the tagger attaches to a word. *)
Record Tagged := mkTagged {
  text : string;
  whitespace_ : string;
  pos_ : string;
  is_stop : bool;
  is_punct : bool
}.

Record Token := mkToken { tok_i : nat; tok : Tagged }.

Abbreviation Doc := (list Token).
Abbreviation Span := (list Token).

Global Instance Tagged_eq_dec : EqDecision Tagged.
Proof. solve_decision. Defined.

Global Instance Token_eq_dec : EqDecision Token.
Proof. solve_decision. Defined.

Global Instance Tagged_countable : Countable Tagged.
Proof.
  refine (inj_countable'
            (λ t, (text t, whitespace_ t, pos_ t, is_stop t, is_punct t))
            (λ p, let '(a, b, c, d, e) := p in mkTagged a b c d e) _).
  by intros [].
Defined.

Global Instance Token_countable : Countable Token.
Proof.
  refine (inj_countable' (λ t, (tok_i t, tok t))
                         (λ p, mkToken p.1 p.2) _).
  by intros [].
Defined.

(** [parser(text)]: the tagger's words, each at its position. *)
Definition parser (ws : list Tagged) : Doc := imap mkToken ws.

(** [token < token] *)
Definition token_lt (a b : Token) : Prop := (tok_i a < tok_i b)%nat.

(** The position a span starts at, and [span < span]. *)
Definition span_start (s : Span) : nat :=
  match s with [] => 0%nat | t :: _ => tok_i t end.
Definition span_lt (a b : Span) : Prop := (span_start a < span_start b)%nat.

(** [str(span)]: the words with the white space between them. *)
Fixpoint span_str (s : Span) : string :=
  match s with
  | [] => ""
  | [t] => text (tok t)
  | t :: s' => text (tok t) +:+ whitespace_ (tok t) +:+ span_str s'
  end.

(** ** Data frames *)

Section frame.
Context {L : Type} `{EqDecision L}.

Record DataFrame := mkFrame {
  index : list L;
  columns : list L;
  values : list (list Z)
}.

(** [pd.DataFrame(columns=cols, index=idx, data=d)] *)
Definition DataFrame_new (cols idx : list L) (d : Z) : DataFrame :=
  {| index := idx; columns := cols;
     values := replicate (length idx) (replicate (length cols) d) |}.

(** [df.loc[r, cs] = df.loc[r, cs] + 1] for a list [cs] of column labels:
    one is added to every cell in a row labelled [r] and a column whose
    label is listed in [cs]. *)
Definition loc_add_list (df : DataFrame) (r : L) (cs : list L) : DataFrame :=
  {| index := index df; columns := columns df;
     values :=
       zip_with (λ lbl row,
                   if decide (lbl = r)
                   then zip_with (λ c v, if Py.contains c cs then v + 1 else v)
                                 (columns df) row
                   else row)
                (index df) (values df) |}.

(** [df.loc[r, c] = df.loc[r, c] + 1] for one column label. *)
Definition loc_add (df : DataFrame) (r c : L) : DataFrame :=
  {| index := index df; columns := columns df;
     values :=
       zip_with (λ lbl row,
                   if decide (lbl = r)
                   then zip_with (λ c' v, if decide (c' = c) then v + 1 else v)
                                 (columns df) row
                   else row)
                (index df) (values df) |}.

(** [df.loc[r, c]] read as a scalar: the cell at the first row labelled
    [r] and the first column labelled [c]; [None] is the [KeyError]. *)
Definition loc (df : DataFrame) (r c : L) : option Z :=
  ri ← list_find (λ lbl, lbl = r) (index df);
  ci ← list_find (λ lbl, lbl = c) (columns df);
  row ← values df !! ri.1;
  row !! ci.1.

(** The matrix that holds [w r c] at row [r] and column [c], and the
    frames that hold such a matrix under the labels [idx] and [cols]. *)
Definition tabulate (w : L → L → Z) (idx cols : list L) : list (list Z) :=
  (λ r, w r <$> cols) <$> idx.

Definition represents (df : DataFrame) (idx cols : list L) (w : L → L → Z)
  : Prop :=
  index df = idx ∧ columns df = cols ∧ values df = tabulate w idx cols.

End frame.

Global Arguments DataFrame : clear implicits.

(** ** The neighbour window *)

(** [end = max(0, len(seq) - (len(seq) - (i + (W+1))))] with [W+1] the
    literal of the source (5 or 15). *)
Definition window_end (len i W : Z) : Z :=
  Z.max 0 (len - (len - (i + (W + 1)))).

(** [nextwords = seq[i+1:end]] *)
Definition nextwords {A} (W : Z) (l : list A) (i : nat) : list A :=
  Py.slice l (Z.of_nat i + 1)
           (window_end (Z.of_nat (length l)) (Z.of_nat i) W).

(** [inset = [x in filt for x in nextwords]] and
    [neighbors = [nextwords[k] for k in range(len(nextwords)) if inset[k]]] *)
Definition neighbors {A} `{EqDecision A} (nextwords filt : list A) : list A :=
  let inset := (λ x, Py.contains x filt) <$> nextwords in
  omap (λ k, match inset !! k with
             | Some true => nextwords !! k
             | _ => None
             end)
       (Py.range (length nextwords)).

(** Attribute [f] of the token [s[k]]; [None] is the [IndexError]. *)
Definition item_attr {T} (f : Tagged → T) (s : Span) (k : nat) : option T :=
  t ← s !! k; Some (f (tok t)).

(** [a and b], [a or b]: the right operand is evaluated only when needed. *)
Definition and_ (a b : option bool) : option bool :=
  x ← a; if x : bool then b else Some false.
Definition or_ (a b : option bool) : option bool :=
  x ← a; if x : bool then Some true else b.

(** [s[k].is_punct == False], [s[k].is_stop == False], [s[k].pos_ == tag] *)
Definition not_punct (s : Span) (k : nat) : option bool :=
  negb <$> item_attr is_punct s k.
Definition not_stop (s : Span) (k : nat) : option bool :=
  negb <$> item_attr is_stop s k.
Definition has_pos (tag : string) (s : Span) (k : nat) : option bool :=
  (λ p, bool_decide (p = tag)) <$> item_attr pos_ s k.

(** ** Unigrams *)

Definition gatsby_filt (gatsby : Doc) : list Token :=
  filter (λ word, is_stop (tok word) = false ∧ pos_ (tok word) = "NOUN") gatsby.

Definition words (gatsby : Doc) : gset Token := list_to_set (gatsby_filt gatsby).

(** The body of the loop over [enumerate(gatsby)]; [W+1] is the literal 5. *)
Definition adjacency_body (W : Z) (gatsby : Doc)
    (adjacency : DataFrame Token) (iw : nat * Token) : DataFrame Token :=
  let '(i, word) := iw in
  if Py.any (λ item, bool_decide (word = item)) (gatsby_filt gatsby) then
    let nextwords := nextwords W gatsby i in
    let neighbors := neighbors nextwords (gatsby_filt gatsby) in
    match neighbors with
    | [] => adjacency
    | _ => loc_add_list adjacency word neighbors
    end
  else adjacency.

Definition cooccurrence (W : Z) (gatsby : Doc) : DataFrame Token :=
  let words := elements (words gatsby) in
  foldl (adjacency_body W gatsby) (DataFrame_new words words 0)
        (Py.enumerate gatsby).

Definition adjacency : Doc → DataFrame Token := cooccurrence 4.

(** ** Digrams *)

Definition new_gats (gatsby : Doc) : list Span :=
  (λ i, Py.slice gatsby (Z.of_nat i) (Z.of_nat i + 2))
    <$> Py.range (length gatsby).

Definition second_gats (gatsby : Doc) : option (list Span) :=
  Py.comprehension (λ digram, and_ (not_punct digram 0) (not_punct digram 1))
                   (Py.slice_to (new_gats gatsby) (-2)).

Definition shorter_gats (gatsby : Doc) : option (list Span) :=
  second_gats ← second_gats gatsby;
  Py.comprehension (λ digram, and_ (not_stop digram 0) (not_stop digram 1))
                   second_gats.

Definition new_gats_filt (gatsby : Doc) : option (list Span) :=
  shorter_gats ← shorter_gats gatsby;
  Py.comprehension (λ digram, and_ (has_pos "ADJ" digram 0)
                                   (has_pos "NOUN" digram 1))
                   shorter_gats.

Definition new_gats_words (gatsby : Doc) : option (gset Span) :=
  list_to_set <$> new_gats_filt gatsby.

(** The body shared by the digram and the trigram loop: [outer] is what the
    loop enumerates, [inner] is what [end] measures and [nextwords] slices,
    [filt] the retained spans. *)
Definition adjacency_ngram_body (W : Z) (inner filt : list Span)
    (adjacency : DataFrame string) (iw : nat * Span) : DataFrame string :=
  let '(i, digr) := iw in
  if Py.any (λ item, bool_decide (digr = item)) filt then
    let nextwords := nextwords W inner i in
    let neighbors := neighbors nextwords filt in
    match neighbors with
    | [] => adjacency
    | _ => foldl (λ adj n, loc_add adj (span_str digr) (span_str n))
                 adjacency neighbors
    end
  else adjacency.

Definition adjacency_ngram (W : Z) (outer inner filt : list Span)
  : DataFrame string :=
  let labels := span_str <$> elements (list_to_set filt : gset Span) in
  foldl (adjacency_ngram_body W inner filt) (DataFrame_new labels labels 0)
        (Py.enumerate outer).

(** [W+1] is the literal 15. *)
Definition cooccurrence_digr (W : Z) (gatsby : Doc)
  : option (DataFrame string) :=
  shorter_gats ← shorter_gats gatsby;
  new_gats_filt ← new_gats_filt gatsby;
  Some (adjacency_ngram W shorter_gats shorter_gats new_gats_filt).

Definition adjacency_digr : Doc → option (DataFrame string) :=
  cooccurrence_digr 14.

(** ** Trigrams *)

(** [trig_gats] as first built, before it is reassigned. *)
Definition trig_gats_windows (gatsby : Doc) : list Span :=
  (λ i, Py.slice gatsby (Z.of_nat i) (Z.of_nat i + 3))
    <$> Py.range (length gatsby).

Definition trig_gats (gatsby : Doc) : option (list Span) :=
  Py.comprehension
    (λ trigram, and_ (not_punct trigram 0)
                     (and_ (not_punct trigram 1) (not_punct trigram 2)))
    (Py.slice_to (trig_gats_windows gatsby) (-2)).

Definition trig_gats_filt (gatsby : Doc) : option (list Span) :=
  trig_gats ← trig_gats gatsby;
  Py.comprehension
    (λ trigram, and_ (not_stop trigram 2)
                     (or_ (has_pos "NOUN" trigram 0)
                          (or_ (has_pos "NOUN" trigram 1)
                               (has_pos "NOUN" trigram 2))))
    trig_gats.

Definition trig_gats_words (gatsby : Doc) : option (gset Span) :=
  list_to_set <$> trig_gats_filt gatsby.

(** The loop enumerates [shorter_gats], the digrams, and slices
    [trig_gats]; [W+1] is the literal 5. *)
Definition cooccurrence_trigr (W : Z) (gatsby : Doc)
  : option (DataFrame string) :=
  shorter_gats ← shorter_gats gatsby;
  trig_gats ← trig_gats gatsby;
  trig_gats_filt ← trig_gats_filt gatsby;
  Some (adjacency_ngram W shorter_gats trig_gats trig_gats_filt).

Definition adjacency_trigr : Doc → option (DataFrame string) :=
  cooccurrence_trigr 4.

(** ** The reporter *)

Section reporter.
Context {Score Node : Type} `{EqDecision Score, EqDecision Node}.
Context (score_lt : relation Score) `{!RelDecision score_lt}.
Context (node_lt : relation Node) `{!RelDecision node_lt}.

(** [(s1, n1) < (s2, n2)] on tuples: the first components that are not
    [==] decide. *)
Definition tuple_lt (x y : Score * Node) : Prop :=
  if decide (x.1 = y.1)
  then (if decide (x.2 = y.2) then False else node_lt x.2 y.2)
  else score_lt x.1 y.1.

Global Instance tuple_lt_dec : RelDecision tuple_lt.
Proof. intros x y. unfold tuple_lt. repeat case_decide; apply _. Defined.

(** The ranking engine's result is a dictionary from the index of a node
    to its score; [ranks[i]] raises [KeyError] on a missing index. *)
Definition scored (ranks : gmap nat Score) (words : list Node)
  : option (list (Score * Node)) :=
  mapM (λ '(i, s), r ← ranks !! i; Some (r, s)) (Py.enumerate words).

End reporter.

Section sorting.
Context {A : Type} (lt : relation A) `{!RelDecision lt}.

(** Stable insertion: [x] goes in front of the first element that is not
    smaller than it. *)
Fixpoint insert_stable (x : A) (l : list A) : list A :=
  match l with
  | [] => [x]
  | y :: l' => if decide (lt y x) then y :: insert_stable x l' else x :: l
  end.

Definition stable_sort (l : list A) : list A := foldr insert_stable [] l.

(** [sorted(l, reverse=r)]: with [reverse=True] the list is reversed,
    sorted, and reversed again, which keeps the sort stable. *)
Definition sorted (l : list A) (rev : bool) : list A :=
  if rev then reverse (stable_sort (reverse l)) else stable_sort l.

End sorting.

Section ranked.
Context {Score Node : Type} `{EqDecision Score, EqDecision Node}.
Context (score_lt : relation Score) `{!RelDecision score_lt}.
Context (node_lt : relation Node) `{!RelDecision node_lt}.

(** [ranked = sorted(((ranks[i],s) for i,s in enumerate(words)),
    reverse=True)] *)
Definition ranked (ranks : gmap nat Score) (words : list Node)
  : option (list (Score * Node)) :=
  pairs ← scored ranks words;
  Some (sorted (tuple_lt score_lt node_lt) pairs true).

(** [ranked[:5]], what is printed. *)
Definition top_keywords (ranks : gmap nat Score) (words : list Node)
  : option (list (Score * Node)) :=
  ranked ← ranked ranks words;
  Some (Py.slice_to ranked 5).

End ranked.

(** ** The builder as the specification words it *)

Definition Zsum (l : list Z) : Z := foldr Z.add 0 l.

Section spec.
Context {N L : Type} `{EqDecision N, EqDecision L}.

(** All contiguous windows of [n] tokens, in order. *)
Definition spec_windows {T} (n : nat) (l : list T) : list (list T) :=
  (λ i, take n (drop i l)) <$> seq 0 (length l + 1 - n).

(** What position [i] adds to the weight of ([r], [c]): if the span at
    [i] is retained and labelled [r], the number of retained spans
    labelled [c] at the positions [i+1 .. i+W] that exist. *)
Definition spec_position_weight (W : nat) (lab : N → L)
    (spans retained : list N) (r c : L) (i : nat) : Z :=
  match spans !! i with
  | Some a =>
      if decide (a ∈ retained ∧ lab a = r)
      then Z.of_nat (length (filter (λ b, b ∈ retained ∧ lab b = c)
                                    (take W (drop (S i) spans))))
      else 0
  | None => 0
  end.

Definition spec_weight (W : nat) (lab : N → L)
    (spans retained : list N) (r c : L) : Z :=
  Zsum (spec_position_weight W lab spans retained r c
          <$> seq 0 (length spans)).

Definition spec_cooccurrence (W : nat) (lab : N → L)
    (spans retained : list N) (labels : list L) : DataFrame L :=
  {| index := labels; columns := labels;
     values := tabulate (spec_weight W lab spans retained) labels labels |}.

End spec.

(** ** The unigram cells, from the text to the printed keywords *)

Global Instance token_lt_dec : RelDecision token_lt.
Proof. intros a b. unfold token_lt. apply _. Defined.

Global Instance span_lt_dec : RelDecision span_lt.
Proof. intros a b. unfold span_lt. apply _. Defined.

Section keywords.
Context {Score : Type} `{EqDecision Score}.
Context (score_lt : relation Score) `{!RelDecision score_lt}.

(** [pagerank] stands for the graph construction and the ranking engine,
    [None] for an exception it raises. *)
Definition keywords (pagerank : list (list Z) → option (gmap nat Score))
    (gatsby : Doc) : option (list (Score * Token)) :=
  ranks ← pagerank (values (adjacency gatsby));
  top_keywords score_lt token_lt ranks (elements (words gatsby)).

End keywords.

(** ** Shapes *)

Definition square_of_dimension {L} (df : DataFrame L) (n : nat) : Prop :=
  length (index df) = n ∧ length (columns df) = n ∧
  length (values df) = n ∧ Forall (λ row, length row = n) (values df).

Definition nonneg_weights {L} (df : DataFrame L) : Prop :=
  Forall (Forall (λ v, 0 ≤ v)) (values df).

(** ** Sample texts, as the tagger returns them *)

Definition word (t ws : string) (p : string) : Tagged :=
  {| text := t; whitespace_ := ws; pos_ := p;
     is_stop := false; is_punct := false |}.
Definition stop_word (t ws : string) (p : string) : Tagged :=
  {| text := t; whitespace_ := ws; pos_ := p;
     is_stop := true; is_punct := false |}.
Definition punct (t ws : string) : Tagged :=
  {| text := t; whitespace_ := ws; pos_ := "PUNCT";
     is_stop := false; is_punct := true |}.

(** "The cat sat. The dog ran." *)
Definition the_cat_sat : list Tagged :=
  [ stop_word "The" " " "DET"; word "cat" " " "NOUN"; word "sat" "" "VERB";
    punct "." " ";
    stop_word "The" " " "DET"; word "dog" " " "NOUN"; word "ran" "" "VERB";
    punct "." "" ].

Definition cat : Token := mkToken 1 (word "cat" " " "NOUN").
Definition dog : Token := mkToken 5 (word "dog" " " "NOUN").

(** "big dog", fifteen stop words, "red cat." *)
Definition far_apart : list Tagged :=
  [ word "big" " " "ADJ"; word "dog" " " "NOUN" ]
  ++ replicate 15 (stop_word "the" " " "DET")
  ++ [ word "red" " " "ADJ"; word "cat" "" "NOUN"; punct "." "" ].

(** "big red dog", without a full stop. *)
Definition big_red_dog : list Tagged :=
  [ word "big" " " "ADJ"; word "red" " " "ADJ"; word "dog" "" "NOUN" ].

(** "cat sat cat" *)
Definition cat_sat_cat : list Tagged :=
  [ word "cat" " " "NOUN"; word "sat" " " "VERB"; word "cat" "" "NOUN" ].

(** "big dog saw big dog." *)
Definition big_dog_twice : list Tagged :=
  [ word "big" " " "ADJ"; word "dog" " " "NOUN"; word "saw" " " "VERB";
    word "big" " " "ADJ"; word "dog" "" "NOUN"; punct "." "" ].

(** ** The order of the report *)

(** [x] may stand before [y] in the report: its score is higher, or the
    scores are equal and its node is not before the node of [y]. *)
Definition ranks_before {Score Node} (score_lt : relation Score)
    (key : Node → nat) (x y : Score * Node) : Prop :=
  score_lt y.1 x.1 ∨ (x.1 = y.1 ∧ (key y.2 ≤ key x.2)%nat).


(** ** The sentence cell *)

(** A string as the sequence of its (UTF-8) code units; [a < b] on strings
    compares these sequences lexicographically. *)
Definition code_points (s : string) : list nat :=
  Ascii.nat_of_ascii <$> String.list_ascii_of_string s.

Definition str_lt (a b : string) : Prop :=
  lexico (code_points a) (code_points b).

Global Instance str_lt_dec : RelDecision str_lt.
Proof. intros a b. unfold str_lt. apply _. Defined.

Section sentences.
Context {Score : Type} `{EqDecision Score}.
Context (score_lt : relation Score) `{!RelDecision score_lt}.

(** [ranked = sorted(((ranks[i],s) for i,s in enumerate(sentences)),
    reverse=True)] and [ranked[0]], what is printed; [None] is the
    [KeyError] of a missing score or the [IndexError] of an empty list. *)
Definition top_sentence (ranks : gmap nat Score) (sentences : list string)
  : option (Score * string) :=
  ranked ← ranked score_lt str_lt ranks sentences;
  ranked !! 0%nat.

End sentences.

(** ** The regression notebook: training and test rows *)




(** * Properties *)

(** ** Python sequences *)

Lemma take_min {A} (l : list A) (n m : nat) :
  (n `min` length l = m `min` length l)%nat → take n l = take m l.
Proof.
  intros Hnm. apply list_eq. intros k. rewrite !lookup_take.
  destruct (decide (k < length l)%nat) as [Hk|Hk].
  - repeat case_decide; try done; lia.
  - rewrite (lookup_ge_None_2 l k) by lia. by repeat case_decide.
Qed.

Lemma slice_nonneg {A} (l : list A) (lo hi : Z) :
  0 ≤ lo → 0 ≤ hi →
  Py.slice l lo hi = take (Z.to_nat hi - Z.to_nat lo) (drop (Z.to_nat lo) l).
Proof.
  intros Hlo Hhi. unfold Py.slice, Py.norm_index.
  rewrite !decide_False by lia.
  destruct (decide (lo ≤ Z.of_nat (length l))) as [Hle|Hgt].
  - rewrite (Z.min_l lo) by lia. apply take_min. rewrite length_drop. lia.
  - rewrite (Z.min_r lo) by lia. rewrite !drop_ge by lia. by rewrite !take_nil.
Qed.

Lemma slice_to_neg {A} (l : list A) (k : nat) :
  (0 < k)%nat → Py.slice_to l (- Z.of_nat k) = take (length l - k) l.
Proof.
  intros Hk. unfold Py.slice_to, Py.slice, Py.norm_index.
  rewrite (decide_False (P := 0 < 0)) by lia.
  rewrite (decide_True (P := - Z.of_nat k < 0)) by lia.
  rewrite Z.min_l by lia. rewrite drop_0. f_equal. lia.
Qed.

Lemma slice_to_nonneg {A} (l : list A) (k : nat) :
  Py.slice_to l (Z.of_nat k) = take k l.
Proof.
  unfold Py.slice_to. rewrite slice_nonneg by lia.
  simpl. f_equal. lia.
Qed.

Lemma enumerate_lookup {A} (l : list A) (i : nat) :
  Py.enumerate l !! i = pair i <$> l !! i.
Proof. apply list_lookup_imap. Qed.

Lemma enumerate_snoc {A} (l : list A) (x : A) :
  Py.enumerate (l ++ [x]) = Py.enumerate l ++ [(length l, x)].
Proof.
  unfold Py.enumerate. rewrite imap_app. simpl. do 3 f_equal. lia.
Qed.

Lemma any_eq_contains {A} `{EqDecision A} (x : A) (l : list A) :
  Py.any (λ item, bool_decide (x = item)) l = Py.contains x l.
Proof.
  unfold Py.any, Py.contains. induction l as [|y l IH]; simpl.
  - done.
  - rewrite IH. destruct (decide (x = y)) as [->|Hne].
    + rewrite bool_decide_eq_true_2 by done. simpl. symmetry.
      apply bool_decide_eq_true. left.
    + rewrite (bool_decide_eq_false_2 (x = y)) by done. simpl.
      apply bool_decide_ext. rewrite elem_of_cons. tauto.
Qed.

(** ** The neighbour window *)

Lemma window_end_eq (len i W : Z) :
  0 ≤ i + W + 1 → window_end len i W = i + W + 1.
Proof. unfold window_end. lia. Qed.

Lemma nextwords_take_drop {A} (W : Z) (l : list A) (i : nat) :
  nextwords W l i = take (Z.to_nat W) (drop (S i) l).
Proof.
  unfold nextwords, window_end. rewrite slice_nonneg by lia.
  replace (Z.to_nat (Z.of_nat i + 1)) with (S i) by lia.
  f_equal. lia.
Qed.

Lemma neighbors_filter {A} `{EqDecision A} (nw filt : list A) :
  neighbors nw filt = filter (λ x, x ∈ filt) nw.
Proof.
  unfold neighbors, Py.range.
  assert (Hgen : ∀ (pre : list A),
    omap (λ k, match ((λ x, Py.contains x filt) <$> (pre ++ nw)) !! k with
               | Some true => (pre ++ nw) !! k
               | _ => None
               end) (seq (length pre) (length nw))
    = filter (λ x, x ∈ filt) nw).
  { unfold omap. induction nw as [|x nw IH]; intros pre; [done|].
    simpl. rewrite list_lookup_fmap.
    rewrite (lookup_app_r pre) by lia. rewrite Nat.sub_diag. simpl.
    specialize (IH (pre ++ [x])). rewrite <- (assoc_L (++)) in IH.
    rewrite length_app in IH. simpl in IH.
    replace (length pre + 1)%nat with (S (length pre)) in IH by lia.
    rewrite IH. rewrite filter_cons. unfold Py.contains.
    case_bool_decide; by case_decide. }
  apply (Hgen []).
Qed.

(** ** Data frames *)

Section frame_facts.
Context {L : Type} `{EqDecision L}.
Implicit Types (df : DataFrame L) (w : L → L → Z) (idx cols : list L).

Lemma replicate_length_fmap {A B} (l : list A) (y : B) :
  replicate (length l) y = (λ _, y) <$> l.
Proof. induction l; simpl; by f_equal. Qed.

Lemma zip_with_fmap_diag {A B C} (f : A → B → C) (g : A → B) (l : list A) :
  zip_with f l (g <$> l) = (λ x, f x (g x)) <$> l.
Proof. induction l; simpl; by f_equal. Qed.

Lemma tabulate_ext w1 w2 idx cols :
  (∀ r c, r ∈ idx → c ∈ cols → w1 r c = w2 r c) →
  tabulate w1 idx cols = tabulate w2 idx cols.
Proof.
  intros Hw. unfold tabulate. apply list_fmap_ext. intros i r Hr.
  apply list_fmap_ext. intros j c Hc.
  apply Hw; eapply list_elem_of_lookup_2; eauto.
Qed.

Lemma represents_ext df idx cols w1 w2 :
  (∀ r c, r ∈ idx → c ∈ cols → w1 r c = w2 r c) →
  represents df idx cols w1 → represents df idx cols w2.
Proof.
  intros Hw (Hi & Hc & Hv). repeat split; try done.
  rewrite Hv. by apply tabulate_ext.
Qed.

Lemma represents_new cols idx :
  represents (DataFrame_new cols idx 0) idx cols (λ _ _, 0).
Proof.
  repeat split. simpl. unfold tabulate.
  by rewrite !replicate_length_fmap.
Qed.

Lemma represents_loc_add df idx cols w r c :
  represents df idx cols w →
  represents (loc_add df r c) idx cols
    (λ a b, w a b + if decide (a = r ∧ b = c) then 1 else 0).
Proof.
  intros (Hi & Hc & Hv). repeat split; try done.
  simpl. rewrite Hv, Hi, Hc. unfold tabulate.
  rewrite zip_with_fmap_diag. apply list_fmap_ext. intros _ a _.
  destruct (decide (a = r)) as [->|Hne].
  - rewrite zip_with_fmap_diag. apply list_fmap_ext. intros _ b _.
    repeat case_decide; naive_solver lia.
  - apply list_fmap_ext. intros _ b _. rewrite decide_False; [lia|tauto].
Qed.

Lemma represents_loc_add_list df idx cols w r cs :
  represents df idx cols w →
  represents (loc_add_list df r cs) idx cols
    (λ a b, w a b + if decide (a = r ∧ b ∈ cs) then 1 else 0).
Proof.
  intros (Hi & Hc & Hv). repeat split; try done.
  simpl. rewrite Hv, Hi, Hc. unfold tabulate.
  rewrite zip_with_fmap_diag. apply list_fmap_ext. intros _ a _.
  destruct (decide (a = r)) as [->|Hne].
  - rewrite zip_with_fmap_diag. apply list_fmap_ext. intros _ b _.
    unfold Py.contains. case_bool_decide; case_decide; naive_solver lia.
  - apply list_fmap_ext. intros _ b _. rewrite decide_False; [lia|tauto].
Qed.

(** The loop [for n in ns: df.loc[r, lab(n)] += 1]. *)
Lemma represents_loc_add_each {N} (lab : N → L) df idx cols w r (ns : list N) :
  represents df idx cols w →
  represents (foldl (λ adj n, loc_add adj r (lab n)) df ns) idx cols
    (λ a b, w a b + if decide (a = r)
                    then Z.of_nat (length (filter (λ n, lab n = b) ns))
                    else 0).
Proof.
  revert df w. induction ns as [|n ns IH]; intros df w Hrep.
  - simpl. eapply represents_ext; [|done]. intros. case_decide; simpl; lia.
  - simpl. eapply represents_ext; [|apply IH, represents_loc_add, Hrep].
    intros a b _ _. simpl. rewrite filter_cons.
    repeat case_decide; simpl; naive_solver lia.
Qed.

Lemma represents_shape df idx cols w :
  represents df idx cols w →
  length (values df) = length idx ∧
  Forall (λ row, length row = length cols) (values df).
Proof.
  intros (_ & _ & ->). unfold tabulate. split; [by rewrite length_fmap|].
  apply Forall_fmap, Forall_true. intros r. simpl. by rewrite length_fmap.
Qed.

Lemma represents_nonneg df idx cols w :
  represents df idx cols w → (∀ r c, 0 ≤ w r c) →
  Forall (Forall (λ v, 0 ≤ v)) (values df).
Proof.
  intros (_ & _ & ->) Hw. unfold tabulate.
  apply Forall_fmap, Forall_true. intros r. simpl.
  apply Forall_fmap, Forall_true. intros c. apply Hw.
Qed.

Lemma list_find_eq_first (l : list L) (x : L) :
  x ∈ l → ∃ k, list_find (λ lbl, lbl = x) l = Some (k, x) ∧ l !! k = Some x.
Proof.
  intros Hx. destruct (list_find_elem_of (λ lbl, lbl = x) l x Hx eq_refl)
    as [[k y] Hk].
  pose proof Hk as Hk'. apply list_find_Some in Hk' as (Hl & -> & _). eauto.
Qed.

Lemma represents_loc df idx cols w r c :
  represents df idx cols w → r ∈ idx → c ∈ cols →
  loc df r c = Some (w r c).
Proof.
  intros (Hi & Hc & Hv) Hr Hcin. unfold loc. rewrite Hi, Hc, Hv.
  destruct (list_find_eq_first idx r Hr) as (ri & -> & Hri).
  destruct (list_find_eq_first cols c Hcin) as (ci & -> & Hci).
  simpl. unfold tabulate. rewrite list_lookup_fmap, Hri. simpl.
  by rewrite list_lookup_fmap, Hci.
Qed.

Lemma loc_missing_row df r c : r ∉ index df → loc df r c = None.
Proof.
  intros Hr. unfold loc.
  destruct (list_find _ (index df)) as [[k y]|] eqn:Hk; [|done].
  apply list_find_Some in Hk as (Hl & -> & _).
  destruct Hr. eapply list_elem_of_lookup_2, Hl.
Qed.

End frame_facts.

(** ** Documents *)

Lemma parser_lookup (ws : list Tagged) (k : nat) :
  parser ws !! k = mkToken k <$> ws !! k.
Proof. apply list_lookup_imap. Qed.

Lemma parser_length (ws : list Tagged) : length (parser ws) = length ws.
Proof. apply length_imap. Qed.

Lemma parser_tok_i (ws : list Tagged) (k : nat) (t : Token) :
  parser ws !! k = Some t → tok_i t = k.
Proof.
  rewrite parser_lookup. destruct (ws !! k); simpl; [|done].
  by intros [= <-].
Qed.

(** Two tokens of one document are equal exactly when they are at the
    same position. *)
Lemma parser_token_eq (ws : list Tagged) (i j : nat) (a b : Token) :
  parser ws !! i = Some a → parser ws !! j = Some b → a = b ↔ i = j.
Proof.
  intros Ha Hb. split.
  - intros ->. apply parser_tok_i in Ha, Hb. congruence.
  - intros ->. congruence.
Qed.

Lemma parser_NoDup (ws : list Tagged) : NoDup (parser ws).
Proof.
  apply NoDup_alt. intros i j t Hi Hj.
  apply parser_tok_i in Hi, Hj. congruence.
Qed.

(** ** Sums *)

Lemma Zsum_cons (x : Z) (l : list Z) : Zsum (x :: l) = x + Zsum l.
Proof. done. Qed.

Lemma Zsum_app (l k : list Z) : Zsum (l ++ k) = Zsum l + Zsum k.
Proof.
  induction l as [|x l IH]; [done|].
  rewrite <- app_comm_cons, !Zsum_cons. lia.
Qed.

Lemma Zsum_nonneg (l : list Z) : Forall (λ v, 0 ≤ v) l → 0 ≤ Zsum l.
Proof. induction 1; [done|]. rewrite Zsum_cons. lia. Qed.

Lemma Zsum_zero {A} (f : A → Z) (l : list A) :
  (∀ x, x ∈ l → f x = 0) → Zsum (f <$> l) = 0.
Proof.
  induction l as [|x l IH]; intros Hf; [done|].
  rewrite fmap_cons, Zsum_cons, Hf by left.
  rewrite IH; [done|]. intros y Hy. apply Hf. by right.
Qed.

(** A sum over positions with a single non-zero term. *)
Lemma Zsum_seq_single (f : nat → Z) (n i : nat) :
  (i < n)%nat → (∀ k, (k < n)%nat → k ≠ i → f k = 0) →
  Zsum (f <$> seq 0 n) = f i.
Proof.
  intros Hi Hf.
  replace n with (i + (1 + (n - i - 1)))%nat at 1 by lia.
  rewrite !seq_app, !fmap_app, !Zsum_app.
  change (seq (0 + i) 1) with [i]. rewrite fmap_cons, Zsum_cons.
  rewrite !Zsum_zero; [simpl; lia|..];
    intros k Hk;
    first [ by apply elem_of_nil in Hk
          | apply elem_of_seq in Hk; apply Hf; lia ].
Qed.

(** ** The co-occurrence loops *)

Section loops.
Context {L : Type} `{EqDecision L}.

(** A loop over [enumerate(l)] whose body adds [pw i] at position [i]
    builds the table of the sums of the [pw i]. *)
Lemma foldl_enumerate_represents {X}
    (body : DataFrame L → nat * X → DataFrame L) (l : list X)
    (pw : L → L → nat → Z) (df0 : DataFrame L) (idx cols : list L) :
  represents df0 idx cols (λ _ _, 0) →
  (∀ df w i x, l !! i = Some x → represents df idx cols w →
     represents (body df (i, x)) idx cols (λ a b, w a b + pw a b i)) →
  represents (foldl body df0 (Py.enumerate l)) idx cols
             (λ a b, Zsum (pw a b <$> seq 0 (length l))).
Proof.
  intros H0 Hbody.
  assert (Hk : ∀ k, (k ≤ length l)%nat →
    represents (foldl body df0 (Py.enumerate (take k l))) idx cols
               (λ a b, Zsum (pw a b <$> seq 0 k))).
  { induction k as [|k IH]; intros Hle; [done|].
    destruct (lookup_lt_is_Some_2 l k) as [x Hx]; [lia|].
    rewrite (take_S_r _ _ _ Hx), enumerate_snoc, foldl_snoc.
    rewrite length_take_le by lia.
    eapply represents_ext;
      [|apply (Hbody _ (λ a b, Zsum (pw a b <$> seq 0 k)) _ _ Hx), IH; lia].
    intros a b _ _. cbv beta.
    rewrite seq_S, fmap_app, Zsum_app.
    change (Zsum (pw a b <$> [(0 + k)%nat])) with (pw a b k + 0). lia. }
  specialize (Hk (length l)). rewrite take_ge in Hk by lia. by apply Hk.
Qed.

End loops.

Lemma filter_eq_length_NoDup {A} `{EqDecision A} (P : A → Prop)
    `{!∀ x, Decision (P x)} (l : list A) (b : A) :
  NoDup l →
  Z.of_nat (length (filter (λ x, P x ∧ x = b) l))
  = if decide (b ∈ filter P l) then 1 else 0.
Proof.
  induction 1 as [|x l Hx Hl IH]; [done|].
  destruct (decide (x = b)) as [->|Hne].
  - assert (Hnot : b ∉ filter P l) by (by intros [_ ?]%list_elem_of_filter).
    rewrite (decide_False (P := b ∈ filter P l)) in IH by done.
    destruct (decide (P b)) as [HP|HP].
    + rewrite filter_cons_True by done. rewrite (filter_cons_True P) by done.
      rewrite (decide_True (P := b ∈ b :: filter P l)) by left.
      simpl length. lia.
    + rewrite filter_cons_False by tauto. rewrite (filter_cons_False P) by done.
      by rewrite IH, decide_False.
  - rewrite filter_cons_False by tauto. rewrite IH.
    apply decide_ext. rewrite !list_elem_of_filter, elem_of_cons.
    split; [tauto|]. intros [? [->|?]]; [done|tauto].
Qed.

(** The unigram body adds at position [i] what the specification words. *)
Lemma adjacency_body_represents (W : Z) (ws : list Tagged)
    (adj : DataFrame Token) (idx cols : list Token) (w : Token → Token → Z)
    (i : nat) (word : Token) :
  parser ws !! i = Some word →
  represents adj idx cols w →
  represents (adjacency_body W (parser ws) adj (i, word)) idx cols
    (λ a b, w a b + spec_position_weight (Z.to_nat W) id (parser ws)
                      (gatsby_filt (parser ws)) a b i).
Proof.
  intros Hi Hrep. unfold adjacency_body.
  rewrite any_eq_contains, nextwords_take_drop, neighbors_filter.
  set (filt := gatsby_filt (parser ws)).
  set (nw := take (Z.to_nat W) (drop (S i) (parser ws))).
  assert (Hnd : NoDup nw).
  { apply (sublist_NoDup nw (parser ws)); [apply parser_NoDup|].
    etrans; [apply sublist_take|apply sublist_drop]. }
  assert (Hpw : ∀ a b,
    spec_position_weight (Z.to_nat W) id (parser ws) filt a b i
    = if decide (word ∈ filt ∧ word = a)
      then (if decide (b ∈ filter (λ x, x ∈ filt) nw) then 1 else 0) else 0).
  { intros a b. unfold spec_position_weight. rewrite Hi. fold nw.
    unfold id. case_decide; [|done].
    by rewrite (filter_eq_length_NoDup (λ x, x ∈ filt)). }
  unfold Py.contains. case_bool_decide as Hin.
  - destruct (filter (λ x, x ∈ filt) nw) as [|n ns] eqn:Hns.
    + eapply represents_ext; [|done]. intros a b _ _. rewrite Hpw.
      rewrite (decide_False (P := b ∈ [])) by apply not_elem_of_nil.
      destruct (decide (word ∈ filt ∧ word = a)); lia.
    + eapply represents_ext; [|by apply represents_loc_add_list].
      intros a b _ _. rewrite Hpw. simpl.
      repeat case_decide; try lia; exfalso; naive_solver.
  - eapply represents_ext; [|done]. intros a b _ _. rewrite Hpw.
    rewrite decide_False by tauto. lia.
Qed.

Lemma cooccurrence_represents (W : Z) (ws : list Tagged) :
  let labels := elements (words (parser ws)) in
  represents (cooccurrence W (parser ws)) labels labels
             (spec_weight (Z.to_nat W) id (parser ws) (gatsby_filt (parser ws))).
Proof.
  intros labels. unfold cooccurrence, spec_weight. fold labels.
  apply (foldl_enumerate_represents (adjacency_body W (parser ws)) (parser ws)
           (spec_position_weight (Z.to_nat W) id (parser ws)
                                 (gatsby_filt (parser ws)))).
  - apply represents_new.
  - intros df w i x Hi Hrep. by apply adjacency_body_represents.
Qed.

(** ** Windowing *)

Lemma comprehension_filter {A} (cond : A → option bool) (l : list A) :
  Forall (λ x, is_Some (cond x)) l →
  Py.comprehension cond l = Some (filter (λ x, cond x = Some true) l).
Proof.
  induction 1 as [|x l [b Hb] Hl IH]; [done|].
  simpl. rewrite Hb, IH. simpl. rewrite filter_cons, Hb.
  destruct b; case_decide; congruence.
Qed.

Lemma Forall_filter_keep {A} (P Q : A → Prop) `{!∀ x, Decision (P x)}
    (l : list A) :
  Forall Q l → Forall Q (filter P l).
Proof.
  rewrite !Forall_forall. intros HQ x [_ Hx]%list_elem_of_filter. by apply HQ.
Qed.

(** The windows of [n] tokens started at every position, without the last
    two. *)
Lemma windows_without_last_two (n : nat) (d : Doc) :
  Py.slice_to ((λ i, Py.slice d (Z.of_nat i) (Z.of_nat i + Z.of_nat n))
                 <$> Py.range (length d)) (-2)
  = (λ i, take n (drop i d)) <$> seq 0 (length d - 2).
Proof.
  rewrite (slice_to_neg _ 2) by lia. unfold Py.range.
  rewrite length_fmap, length_seq, <- fmap_take, take_seq.
  rewrite Nat.min_l by lia. apply list_fmap_ext. intros _ i _.
  rewrite slice_nonneg by lia. rewrite Nat2Z.id. f_equal. lia.
Qed.

Lemma windows_without_last_two_length (n : nat) (d : Doc) :
  (n ≤ 3)%nat →
  Forall (λ s, length s = n)
         ((λ i, take n (drop i d)) <$> seq 0 (length d - 2)).
Proof.
  intros Hn. apply Forall_fmap, Forall_forall. intros i [_ Hi]%elem_of_seq.
  simpl. rewrite length_take, length_drop. lia.
Qed.

(** A condition on the tokens [0 .. n-1] of a span of [n] tokens does not
    raise. *)
Ltac span_cond_total :=
  let s := fresh "s" in
  let Hs := fresh "Hs" in
  intros s Hs;
  repeat (destruct s as [|? s]; simpl in Hs; try lia);
  unfold and_, or_, not_punct, not_stop, has_pos, item_attr; simpl;
  repeat (match goal with
          | |- context [if ?b then _ else _] => destruct b; simpl
          end);
  eauto.

Lemma digram_punct_total (s : Span) :
  length s = 2%nat → is_Some (and_ (not_punct s 0) (not_punct s 1)).
Proof. revert s. span_cond_total. Qed.

Lemma digram_stop_total (s : Span) :
  length s = 2%nat → is_Some (and_ (not_stop s 0) (not_stop s 1)).
Proof. revert s. span_cond_total. Qed.

Lemma digram_pos_total (s : Span) :
  length s = 2%nat → is_Some (and_ (has_pos "ADJ" s 0) (has_pos "NOUN" s 1)).
Proof. revert s. span_cond_total. Qed.

Lemma trigram_punct_total (s : Span) :
  length s = 3%nat →
  is_Some (and_ (not_punct s 0) (and_ (not_punct s 1) (not_punct s 2))).
Proof. revert s. span_cond_total. Qed.

Lemma trigram_filt_total (s : Span) :
  length s = 3%nat →
  is_Some (and_ (not_stop s 2)
                (or_ (has_pos "NOUN" s 0)
                     (or_ (has_pos "NOUN" s 1) (has_pos "NOUN" s 2)))).
Proof. revert s. span_cond_total. Qed.

(** None of the digram and trigram comprehensions raises: each is the
    filter of the windows that are left after the last two are cut off. *)
Lemma second_gats_eq (d : Doc) :
  second_gats d
  = Some (filter (λ s, and_ (not_punct s 0) (not_punct s 1) = Some true)
                 ((λ i, take 2 (drop i d)) <$> seq 0 (length d - 2))).
Proof.
  unfold second_gats, new_gats.
  rewrite (windows_without_last_two 2). apply comprehension_filter.
  eapply Forall_impl; [apply (windows_without_last_two_length 2); lia|].
  apply digram_punct_total.
Qed.

Lemma second_gats_length (d : Doc) (sg : list Span) :
  second_gats d = Some sg → Forall (λ s, length s = 2%nat) sg.
Proof.
  rewrite second_gats_eq. intros [= <-]. apply Forall_filter_keep.
  apply (windows_without_last_two_length 2). lia.
Qed.

Lemma shorter_gats_eq (d : Doc) :
  ∃ sg, second_gats d = Some sg ∧
  shorter_gats d
  = Some (filter (λ s, and_ (not_stop s 0) (not_stop s 1) = Some true) sg).
Proof.
  destruct (second_gats d) as [sg|] eqn:Hsg;
    [|by rewrite second_gats_eq in Hsg].
  exists sg. split; [done|]. unfold shorter_gats. rewrite Hsg. simpl.
  apply comprehension_filter.
  eapply Forall_impl; [by eapply second_gats_length|].
  apply digram_stop_total.
Qed.

Lemma shorter_gats_length (d : Doc) (sh : list Span) :
  shorter_gats d = Some sh → Forall (λ s, length s = 2%nat) sh.
Proof.
  destruct (shorter_gats_eq d) as (sg & Hsg & ->). intros [= <-].
  apply Forall_filter_keep. by eapply second_gats_length.
Qed.

Lemma new_gats_filt_eq (d : Doc) :
  ∃ sh, shorter_gats d = Some sh ∧
  new_gats_filt d
  = Some (filter (λ s, and_ (has_pos "ADJ" s 0) (has_pos "NOUN" s 1)
                       = Some true) sh).
Proof.
  destruct (shorter_gats_eq d) as (sg & Hsg & Hsh).
  eexists. split; [done|]. unfold new_gats_filt. rewrite Hsh. simpl.
  apply comprehension_filter.
  eapply Forall_impl; [by eapply shorter_gats_length|].
  apply digram_pos_total.
Qed.

Lemma trig_gats_eq (d : Doc) :
  trig_gats d
  = Some (filter (λ s, and_ (not_punct s 0)
                            (and_ (not_punct s 1) (not_punct s 2)) = Some true)
                 ((λ i, take 3 (drop i d)) <$> seq 0 (length d - 2))).
Proof.
  unfold trig_gats, trig_gats_windows.
  rewrite (windows_without_last_two 3). apply comprehension_filter.
  eapply Forall_impl; [apply (windows_without_last_two_length 3); lia|].
  apply trigram_punct_total.
Qed.

Lemma trig_gats_length (d : Doc) (tg : list Span) :
  trig_gats d = Some tg → Forall (λ s, length s = 3%nat) tg.
Proof.
  rewrite trig_gats_eq. intros [= <-]. apply Forall_filter_keep.
  apply (windows_without_last_two_length 3). lia.
Qed.

Lemma trig_gats_filt_eq (d : Doc) :
  ∃ tg, trig_gats d = Some tg ∧
  trig_gats_filt d
  = Some (filter (λ s, and_ (not_stop s 2)
                            (or_ (has_pos "NOUN" s 0)
                                 (or_ (has_pos "NOUN" s 1)
                                      (has_pos "NOUN" s 2))) = Some true) tg).
Proof.
  destruct (trig_gats d) as [tg|] eqn:Htg; [|by rewrite trig_gats_eq in Htg].
  exists tg. split; [done|]. unfold trig_gats_filt. rewrite Htg. simpl.
  apply comprehension_filter.
  eapply Forall_impl; [by eapply trig_gats_length|].
  apply trigram_filt_total.
Qed.

(** ** The digram and trigram loops *)

Lemma adjacency_ngram_body_represents (W : Z) (spans filt : list Span)
    (adj : DataFrame string) (idx cols : list string)
    (w : string → string → Z) (i : nat) (x : Span) :
  spans !! i = Some x →
  represents adj idx cols w →
  represents (adjacency_ngram_body W spans filt adj (i, x)) idx cols
    (λ a b, w a b
            + spec_position_weight (Z.to_nat W) span_str spans filt a b i).
Proof.
  intros Hi Hrep. unfold adjacency_ngram_body.
  rewrite any_eq_contains, nextwords_take_drop, neighbors_filter.
  set (nw := take (Z.to_nat W) (drop (S i) spans)).
  assert (Hpw : ∀ a b,
    spec_position_weight (Z.to_nat W) span_str spans filt a b i
    = if decide (x ∈ filt ∧ span_str x = a)
      then Z.of_nat (length (filter (λ n, span_str n = b)
                                    (filter (λ n, n ∈ filt) nw)))
      else 0).
  { intros a b. unfold spec_position_weight. rewrite Hi. fold nw.
    case_decide; [|done]. rewrite list_filter_filter.
    do 2 f_equal. apply list_filter_iff. tauto. }
  unfold Py.contains. case_bool_decide as Hin.
  - destruct (filter (λ n, n ∈ filt) nw) as [|n ns] eqn:Hns.
    + eapply represents_ext; [|done]. intros a b _ _. rewrite Hpw.
      destruct (decide (x ∈ filt ∧ span_str x = a)); simpl; lia.
    + eapply represents_ext;
        [|by apply (represents_loc_add_each span_str)].
      intros a b _ _. rewrite Hpw. cbv beta.
      destruct (decide (a = span_str x)) as [->|Hne].
      * by rewrite decide_True.
      * rewrite decide_False; [done|]. intros [_ ?]. done.
  - eapply represents_ext; [|done]. intros a b _ _. rewrite Hpw.
    rewrite decide_False by tauto. lia.
Qed.

(** A loop that enumerates the very sequence it slices builds the table
    the specification words. *)
Lemma adjacency_ngram_represents (W : Z) (spans filt : list Span) :
  let labels := span_str <$> elements (list_to_set filt : gset Span) in
  represents (adjacency_ngram W spans spans filt) labels labels
             (spec_weight (Z.to_nat W) span_str spans filt).
Proof.
  intros labels. unfold adjacency_ngram, spec_weight. fold labels.
  apply (foldl_enumerate_represents
           (adjacency_ngram_body W spans filt) spans
           (spec_position_weight (Z.to_nat W) span_str spans filt)).
  - apply represents_new.
  - intros df w i x Hi Hrep. by apply adjacency_ngram_body_represents.
Qed.

(** A loop that enumerates spans none of which is retained leaves the
    frame as it was created. *)
Lemma adjacency_ngram_no_match (W : Z) (outer inner filt : list Span) :
  Forall (λ x, x ∉ filt) outer →
  adjacency_ngram W outer inner filt
  = let labels := span_str <$> elements (list_to_set filt : gset Span) in
    DataFrame_new labels labels 0.
Proof.
  intros Hout. unfold adjacency_ngram. cbv zeta.
  generalize (DataFrame_new
                (span_str <$> elements (list_to_set filt : gset Span))
                (span_str <$> elements (list_to_set filt : gset Span)) 0).
  assert (Hen : Forall (λ iw : nat * Span, iw.2 ∉ filt) (Py.enumerate outer)).
  { apply Forall_forall. intros [i x] Hix.
    apply list_elem_of_lookup in Hix as [k Hk].
    rewrite enumerate_lookup in Hk.
    destruct (outer !! k) as [y|] eqn:Hy; simplify_eq/=.
    rewrite Forall_forall in Hout. apply Hout.
    by eapply list_elem_of_lookup_2. }
  induction Hen as [|[i x] l Hx Hl IH]; intros df; [done|].
  simpl. rewrite any_eq_contains. unfold Py.contains.
  rewrite bool_decide_eq_false_2 by done. apply IH.
Qed.

(** The trigram frame: the loop enumerates digrams, none of which is a
    retained trigram, so no cell is ever incremented. *)
Lemma adjacency_trigr_zero (W : Z) (d : Doc) :
  ∃ tf, trig_gats_filt d = Some tf ∧
  cooccurrence_trigr W d
  = Some (let labels := span_str <$> elements (list_to_set tf : gset Span) in
          DataFrame_new labels labels 0).
Proof.
  destruct (trig_gats_filt_eq d) as (tg & Htg & Htf).
  destruct (new_gats_filt_eq d) as (sh & Hsh & _).
  eexists. split; [done|].
  unfold cooccurrence_trigr. rewrite Hsh, Htg, Htf. simpl. f_equal.
  apply adjacency_ngram_no_match.
  pose proof (shorter_gats_length d sh Hsh) as Hlen2.
  pose proof (trig_gats_length d tg Htg) as Hlen3.
  rewrite Forall_forall in Hlen2, Hlen3.
  apply Forall_forall. intros x Hx [_ Hin]%list_elem_of_filter.
  specialize (Hlen2 x Hx). specialize (Hlen3 x Hin). lia.
Qed.

(** ** Claims *)

(** C10.  For every sequence length [L], position [i ≥ 0] and window
    [W ≥ 0] (4 and 14 in the source), the end index
    [max(0, L - (L - (i+W+1)))] is [i+W+1], whatever [L] is: the
    expression never clips.  The slice [seq[i+1:end]] is cut at the end of
    the sequence by the slice itself, and holds exactly the elements at
    the positions [i+1 .. min(i+W, L-1)]. *)
Theorem C10_window_end_never_clips {A} (l : list A) (L i W : Z) :
  0 ≤ i → 0 ≤ W →
  window_end L i W = i + W + 1 ∧
  let nw := nextwords W l (Z.to_nat i) in
  let last := Z.min (i + W) (Z.of_nat (length l) - 1) in
  Z.of_nat (length nw) = Z.max 0 (last - i) ∧
  ∀ k : nat, (k < length nw)%nat →
    nw !! k = l !! (Z.to_nat i + 1 + k)%nat ∧ i + 1 + Z.of_nat k ≤ last.
Proof.
  intros Hi HW. split; [apply window_end_eq; lia|].
  cbv zeta. rewrite nextwords_take_drop.
  rewrite length_take, length_drop. split; [lia|].
  intros k Hk. rewrite lookup_take_lt by lia. rewrite lookup_drop.
  split; [f_equal; lia|lia].
Qed.

Lemma C10_witness :
  window_end 3 1 4 = 6 ∧
  let nw := nextwords 4 [10; 20; 30]%nat 1 in
  Z.of_nat (length nw) = 1 ∧
  ∀ k : nat, (k < length nw)%nat →
    nw !! k = [10; 20; 30]%nat !! (1 + 1 + k)%nat ∧ 1 + 1 + Z.of_nat k ≤ 2.
Proof. apply (C10_window_end_never_clips [10; 20; 30]%nat 3 1 4); lia. Defined.

Lemma words_elem_of (d : Doc) (t : Token) :
  t ∈ words d ↔ t ∈ gatsby_filt d.
Proof. unfold words. apply elem_of_list_to_set. Qed.

(** A token of the document is among the [W] tokens after position [i]
    exactly when its own position is one of [i+1 .. i+W]. *)
Lemma window_membership (ws : list Tagged) (W i j : nat) (b : Token) :
  parser ws !! j = Some b →
  b ∈ take W (drop (S i) (parser ws)) ↔ (i < j ≤ i + W)%nat.
Proof.
  intros Hj. rewrite elem_of_take. split.
  - intros (k & Hk & HkW). rewrite lookup_drop in Hk.
    assert (j = (S i + k)%nat) as ->; [|lia].
    apply (parser_token_eq ws j (S i + k) b b Hj Hk). done.
  - intros Hij. exists (j - S i)%nat. split; [|lia].
    rewrite lookup_drop. by replace (S i + (j - S i))%nat with j by lia.
Qed.

(** The weight the unigram loop leaves between two retained tokens. *)
Lemma unigram_weight (ws : list Tagged) (W i j : nat) (a b : Token) :
  let d := parser ws in
  d !! i = Some a → d !! j = Some b → a ∈ gatsby_filt d → b ∈ gatsby_filt d →
  spec_weight W id d (gatsby_filt d) a b
  = if decide (i < j ≤ i + W)%nat then 1 else 0.
Proof.
  intros d Hi Hj Ha Hb. unfold spec_weight.
  rewrite (Zsum_seq_single _ (length d) i); subst d.
  - unfold spec_position_weight. rewrite Hi. unfold id.
    rewrite decide_True by done.
    rewrite (filter_eq_length_NoDup (λ x, x ∈ gatsby_filt (parser ws))).
    + apply decide_ext. rewrite list_elem_of_filter.
      rewrite (window_membership ws W i j b Hj). tauto.
    + apply (sublist_NoDup _ (parser ws)); [apply parser_NoDup|].
      etrans; [apply sublist_take|apply sublist_drop].
  - by eapply lookup_lt_Some.
  - intros k Hk Hne. unfold spec_position_weight.
    destruct (parser ws !! k) as [x|] eqn:Hx; [|done].
    rewrite decide_False; [done|]. unfold id. intros [_ ->].
    apply Hne. by apply (parser_token_eq ws k i a a Hx Hi).
Qed.

(** C1.  For every text and every position [i] of the full token sequence
    whose token is retained, the unigram builder examines exactly the
    tokens at the positions [i+1 .. i+4] that exist, and adds exactly one to
    the weight from the token at [i] to each examined token that is
    retained, leaving every other cell as it was; so the weight between
    two retained tokens at positions [i] and [j] is 1 when [i < j ≤ i+4]
    and 0 otherwise.  On "The cat sat. The dog ran." the graph has the two
    nodes cat and dog, dog is 4 tokens after cat, and weight(cat, dog) is
    1 (and weight(dog, cat) is 0). *)
Theorem C1_unigram_window :
  (∀ (ws : list Tagged) (i : nat) (word : Token),
     let gatsby := parser ws in
     gatsby !! i = Some word → word ∈ words gatsby →
     nextwords 4 gatsby i = take 4 (drop (S i) gatsby) ∧
     (∀ adj idx cols w,
        represents adj idx cols w →
        represents (adjacency_body 4 gatsby adj (i, word)) idx cols
          (λ a b, w a b + if decide (a = word ∧ b ∈ nextwords 4 gatsby i
                                     ∧ b ∈ words gatsby)
                          then 1 else 0)) ∧
     (∀ (j : nat) (b : Token),
        gatsby !! j = Some b → b ∈ words gatsby →
        loc (adjacency gatsby) word b
        = Some (if decide (i < j ≤ i + 4)%nat then 1 else 0)))
  ∧ (let gatsby := parser the_cat_sat in
     elements (words gatsby) ≡ₚ [cat; dog] ∧
     gatsby !! 1%nat = Some cat ∧ gatsby !! 5%nat = Some dog ∧
     loc (adjacency gatsby) cat dog = Some 1 ∧
     loc (adjacency gatsby) dog cat = Some 0).
Proof.
  split.
  - intros ws i word gatsby Hi Hword.
    pose proof (proj1 (words_elem_of _ _) Hword) as Hfilt.
    split; [apply nextwords_take_drop|]. split.
    + intros adj idx cols w Hrep.
      eapply represents_ext;
        [|by apply (adjacency_body_represents 4 ws adj idx cols w i word)].
      intros a b _ _. cbv beta. f_equal.
      unfold spec_position_weight. fold gatsby. rewrite Hi. unfold id.
      rewrite nextwords_take_drop.
      change (Z.to_nat 4) with 4%nat.
      destruct (decide (word ∈ gatsby_filt gatsby ∧ word = a)) as [[_ <-]|Hn].
      * rewrite (filter_eq_length_NoDup (λ x, x ∈ gatsby_filt gatsby)).
        -- apply decide_ext.
           rewrite list_elem_of_filter, words_elem_of. tauto.
        -- apply (sublist_NoDup _ gatsby); [apply parser_NoDup|].
           etrans; [apply sublist_take|apply sublist_drop].
      * rewrite decide_False; [done|]. intros (-> & _). tauto.
    + intros j b Hj Hb. apply words_elem_of in Hb.
      pose proof (cooccurrence_represents 4 ws) as Hrep. cbv zeta in Hrep.
      unfold adjacency.
      rewrite (represents_loc _ _ _ _ word b Hrep).
      * f_equal. apply (unigram_weight ws 4 i j word b); done.
      * apply elem_of_elements. by apply words_elem_of.
      * apply elem_of_elements. by apply words_elem_of.
  - cbv zeta. split; [|by vm_compute].
    assert (elements (words (parser the_cat_sat)) = [cat; dog]) as ->;
      [by vm_compute|done].
Qed.

Lemma C1_witness :
  nextwords 4 (parser the_cat_sat) 1 = take 4 (drop 2 (parser the_cat_sat)) ∧
  loc (adjacency (parser the_cat_sat)) cat dog
  = Some (if decide (1 < 5 ≤ 1 + 4)%nat then 1 else 0).
Proof.
  assert (Hcat : parser the_cat_sat !! 1%nat = Some cat) by reflexivity.
  assert (Hdog : parser the_cat_sat !! 5%nat = Some dog) by reflexivity.
  assert (Hc : cat ∈ words (parser the_cat_sat)) by (by vm_compute).
  assert (Hd : dog ∈ words (parser the_cat_sat)) by (by vm_compute).
  destruct (proj1 C1_unigram_window the_cat_sat 1%nat cat Hcat Hc)
    as (Hnw & _ & Hloc).
  split; [exact Hnw|exact (Hloc 5%nat dog Hdog Hd)].
Defined.

Lemma spec_weight_nonneg {N L} `{EqDecision N, EqDecision L}
    (W : nat) (lab : N → L) (spans retained : list N) (r c : L) :
  0 ≤ spec_weight W lab spans retained r c.
Proof.
  unfold spec_weight. apply Zsum_nonneg, Forall_fmap, Forall_true.
  intros i. simpl. unfold spec_position_weight.
  destruct (spans !! i); [|done]. case_decide; lia.
Qed.

Lemma represents_square {L} (df : DataFrame L) (labels : list L)
    (w : L → L → Z) :
  represents df labels labels w → square_of_dimension df (length labels).
Proof.
  intros Hrep. destruct (represents_shape _ _ _ _ Hrep) as [Hr Hc].
  destruct Hrep as (Hi & Hcol & _). unfold square_of_dimension.
  by rewrite Hi, Hcol.
Qed.

Lemma cooccurrence_digr_eq (W : Z) (d : Doc) :
  ∃ sh nf, shorter_gats d = Some sh ∧ new_gats_filt d = Some nf ∧
           cooccurrence_digr W d = Some (adjacency_ngram W sh sh nf).
Proof.
  destruct (new_gats_filt_eq d) as (sh & Hsh & Hnf).
  eexists _, _. split; [done|]. split; [done|].
  unfold cooccurrence_digr. by rewrite Hsh, Hnf.
Qed.

(** C4.  For every text and every window [W ≥ 1], the frame the unigram
    builder and the frame the digram builder return are square, with one
    row and one column for each member of the set of retained tokens,
    respectively retained digrams, and all their entries are non-negative
    integers; the digram builder does return a frame. *)
Theorem C4_adjacency_square_nonneg (ws : list Tagged) (W : Z) :
  1 ≤ W →
  let gatsby := parser ws in
  (square_of_dimension (cooccurrence W gatsby) (size (words gatsby)) ∧
   nonneg_weights (cooccurrence W gatsby)) ∧
  (∃ df s, cooccurrence_digr W gatsby = Some df ∧
           new_gats_words gatsby = Some s ∧
           square_of_dimension df (size s) ∧ nonneg_weights df).
Proof.
  intros _ gatsby. split.
  - pose proof (cooccurrence_represents W ws) as Hrep. cbv zeta in Hrep.
    split.
    + apply (represents_square _ _ _ Hrep).
    + eapply represents_nonneg; [exact Hrep|]. intros r c.
      apply spec_weight_nonneg.
  - destruct (cooccurrence_digr_eq W gatsby) as (sh & nf & Hsh & Hnf & Hdf).
    exists (adjacency_ngram W sh sh nf), (list_to_set nf).
    split; [done|]. split; [unfold new_gats_words; by rewrite Hnf|].
    pose proof (adjacency_ngram_represents W sh nf) as Hrep.
    cbv zeta in Hrep. split.
    + pose proof (represents_square _ _ _ Hrep) as Hsq.
      by rewrite length_fmap in Hsq.
    + eapply represents_nonneg; [exact Hrep|]. intros r c.
      apply spec_weight_nonneg.
Qed.

Lemma C4_witness :
  (square_of_dimension (cooccurrence 4 (parser the_cat_sat))
                       (size (words (parser the_cat_sat))) ∧
   nonneg_weights (cooccurrence 4 (parser the_cat_sat))) ∧
  (∃ df s, cooccurrence_digr 4 (parser the_cat_sat) = Some df ∧
           new_gats_words (parser the_cat_sat) = Some s ∧
           square_of_dimension df (size s) ∧ nonneg_weights df).
Proof. apply (C4_adjacency_square_nonneg the_cat_sat 4). lia. Defined.

Lemma represents_eq {L} (df : DataFrame L) (idx cols : list L)
    (w : L → L → Z) :
  represents df idx cols w →
  df = {| index := idx; columns := cols; values := tabulate w idx cols |}.
Proof. destruct df. intros (Hi & Hc & Hv). simpl in *. by subst. Qed.

Lemma filter_ext_Forall {A} (P Q : A → Prop)
    `{!∀ x, Decision (P x), !∀ x, Decision (Q x)} (l : list A) :
  Forall (λ x, P x ↔ Q x) l → filter P l = filter Q l.
Proof.
  induction 1 as [|x l Hx Hl IH]; [done|].
  rewrite !filter_cons, IH. destruct (decide (P x)), (decide (Q x)); tauto.
Qed.

(** On a digram, passing the punctuation and the stop-word comprehension
    is having neither a punctuation mark nor a stop word. *)
Lemma digram_kept_iff (s : Span) :
  length s = 2%nat →
  (and_ (not_stop s 0) (not_stop s 1) = Some true ∧
   and_ (not_punct s 0) (not_punct s 1) = Some true)
  ↔ Forall (λ t, is_punct (tok t) = false ∧ is_stop (tok t) = false) s.
Proof.
  intros Hs. destruct s as [|a [|b [|c s]]]; simpl in Hs; try lia.
  rewrite !Forall_cons, Forall_nil.
  unfold and_, not_punct, not_stop, item_attr; simpl.
  destruct (is_punct (tok a)), (is_punct (tok b)),
           (is_stop (tok a)), (is_stop (tok b)); simpl;
    intuition congruence.
Qed.

(** C3 (as amended).  The unigram builder scans the full, unfiltered token
    sequence of the text with [W = 4]: its frame is the one the
    specification words for that sequence.  The digram builder scans, with
    [W = 14], the digrams that are left after the windows with a
    punctuation mark or a stop word are removed; its frame is the one the
    specification words for that filtered sequence. *)
Theorem C3_outer_scan_sequences (ws : list Tagged) :
  let gatsby := parser ws in
  adjacency gatsby
  = spec_cooccurrence 4 id gatsby (gatsby_filt gatsby)
                      (elements (words gatsby))
  ∧ ∃ sh nf,
      shorter_gats gatsby = Some sh ∧ new_gats_filt gatsby = Some nf ∧
      sh = filter (λ s, Forall (λ t, is_punct (tok t) = false
                                     ∧ is_stop (tok t) = false) s)
                  (Py.slice_to (new_gats gatsby) (-2)) ∧
      adjacency_digr gatsby
      = Some (spec_cooccurrence 14 span_str sh nf
                (span_str <$> elements (list_to_set nf : gset Span))).
Proof.
  intros gatsby. split.
  - apply (represents_eq _ _ _ _ (cooccurrence_represents 4 ws)).
  - destruct (cooccurrence_digr_eq 14 gatsby) as (sh & nf & Hsh & Hnf & Hdf).
    exists sh, nf. split; [done|]. split; [done|]. split.
    + destruct (shorter_gats_eq gatsby) as (sg & Hsg & Hsh').
      rewrite second_gats_eq in Hsg. simplify_eq.
      unfold new_gats. rewrite (windows_without_last_two 2).
      rewrite list_filter_filter. apply filter_ext_Forall.
      eapply Forall_impl;
        [apply (windows_without_last_two_length 2); lia|].
      intros s Hs. by apply digram_kept_iff.
    + unfold adjacency_digr. rewrite Hdf. f_equal.
      apply (represents_eq _ _ _ _ (adjacency_ngram_represents 14 sh nf)).
Qed.

(** C3 as stated fails: the digram builder does not scan the full,
    unfiltered digram sequence.  In "big dog the ... the red cat." the
    digram "red cat" is 17 places after "big dog" in the full sequence,
    outside a window of 14, yet the builder counts it as a neighbour,
    because the stop-word digrams between the two were removed before the
    scan. *)
Lemma C3_counterexample :
  let gatsby := parser far_apart in
  ∃ nf, new_gats_filt gatsby = Some nf ∧
    (adjacency_digr gatsby ≫= λ df, loc df "big dog" "red cat") = Some 1 ∧
    loc (spec_cooccurrence 14 span_str (spec_windows 2 gatsby) nf
           (span_str <$> elements (list_to_set nf : gset Span)))
        "big dog" "red cat" = Some 0.
Proof. eexists. split; [by vm_compute|]. split; by vm_compute. Qed.

Lemma trigram_windows_spec (d : Doc) :
  Py.slice_to (trig_gats_windows d) (-2) = spec_windows 3 d.
Proof.
  unfold trig_gats_windows. rewrite (windows_without_last_two 3).
  unfold spec_windows. by replace (length d + 1 - 3)%nat with (length d - 2)%nat by lia.
Qed.

Lemma digram_windows_count (d : Doc) :
  length (Py.slice_to (new_gats d) (-2)) = (length d - 2)%nat ∧
  length (spec_windows 2 d) = (length d + 1 - 2)%nat.
Proof.
  unfold new_gats. rewrite (windows_without_last_two 2).
  unfold spec_windows. by rewrite !length_fmap, !length_seq.
Qed.

(** C2.  The trigram windowing keeps exactly the [L-3+1] full windows: of
    the [L] windows it builds it cuts off the last two, the partial ones.
    The digram windowing cuts off the last two windows as well, so it
    keeps [L-2] windows where the claim has [L-2+1]: the last full digram
    is lost with the one partial window.  In "big red dog" the digram
    "red dog" is a full window, an adjective followed by a noun, and the
    digram cells do not retain it. *)
Theorem C2_digram_windowing_drops_full_window :
  (∀ d : Doc, Py.slice_to (trig_gats_windows d) (-2) = spec_windows 3 d) ∧
  (∀ d : Doc,
     length (Py.slice_to (new_gats d) (-2)) = (length d - 2)%nat ∧
     length (spec_windows 2 d) = (length d + 1 - 2)%nat) ∧
  (let gatsby := parser big_red_dog in
   let big := mkToken 0 (word "big" " " "ADJ") in
   let red := mkToken 1 (word "red" " " "ADJ") in
   let dog := mkToken 2 (word "dog" "" "NOUN") in
   spec_windows 2 gatsby = [[big; red]; [red; dog]] ∧
   Py.slice_to (new_gats gatsby) (-2) = [[big; red]] ∧
   second_gats gatsby = Some [[big; red]] ∧
   new_gats_filt gatsby = Some []).
Proof.
  split; [apply trigram_windows_spec|].
  split; [apply digram_windows_count|].
  cbv zeta. repeat split; by vm_compute.
Qed.

(** C6.  The set of retained tokens holds token occurrences, not texts:
    in "cat sat cat" the two occurrences of "cat" are two members of
    [words] and two rows of the frame.  The same holds of the digrams of
    "big dog saw big dog.", where the set of retained digrams has two
    members and the frame two rows and two columns labelled "big dog". *)
Theorem C6_occurrences_are_distinct_nodes :
  (let gatsby := parser cat_sat_cat in
   (λ t, text (tok t)) <$> elements (words gatsby) = ["cat"; "cat"] ∧
   size (words gatsby) = 2%nat ∧
   length (values (adjacency gatsby)) = 2%nat) ∧
  (let gatsby := parser big_dog_twice in
   size <$> new_gats_words gatsby = Some 2%nat ∧
   index <$> adjacency_digr gatsby = Some ["big dog"; "big dog"] ∧
   columns <$> adjacency_digr gatsby = Some ["big dog"; "big dog"]).
Proof.
  cbv zeta. repeat split; vm_compute; reflexivity.
Qed.

(** ** Sorting *)

Section sort_facts.
Context {A : Type} (lt : relation A) `{!RelDecision lt}.

Lemma insert_stable_Permutation (x : A) (l : list A) :
  insert_stable lt x l ≡ₚ x :: l.
Proof.
  induction l as [|y l IH]; [done|]. simpl. case_decide; [|done].
  by rewrite IH, Permutation_swap.
Qed.

Lemma stable_sort_Permutation (l : list A) : stable_sort lt l ≡ₚ l.
Proof.
  induction l as [|x l IH]; [done|]. simpl.
  by rewrite insert_stable_Permutation, IH.
Qed.

Lemma sorted_Permutation (l : list A) (rev : bool) : sorted lt l rev ≡ₚ l.
Proof.
  destruct rev; simpl.
  - by rewrite reverse_Permutation, stable_sort_Permutation,
               reverse_Permutation.
  - apply stable_sort_Permutation.
Qed.

Context (Hasym : ∀ x y, lt x y → ¬ lt y x).

Lemma insert_stable_HdRel (x y : A) (l : list A) :
  lt y x → HdRel (λ a b, ¬ lt b a) y l →
  HdRel (λ a b, ¬ lt b a) y (insert_stable lt x l).
Proof.
  intros Hyx Hl. destruct l as [|z l]; simpl.
  - constructor. by apply Hasym.
  - case_decide; constructor; [by inv Hl|by apply Hasym].
Qed.

Lemma insert_stable_Sorted (x : A) (l : list A) :
  Sorted (λ a b, ¬ lt b a) l → Sorted (λ a b, ¬ lt b a) (insert_stable lt x l).
Proof.
  induction 1 as [|y l Hl IH Hhd]; simpl.
  - by repeat constructor.
  - case_decide.
    + constructor; [done|]. by apply insert_stable_HdRel.
    + constructor; [by constructor|]. by constructor.
Qed.

Lemma stable_sort_Sorted (l : list A) :
  Sorted (λ a b, ¬ lt b a) (stable_sort lt l).
Proof.
  induction l as [|x l IH]; simpl; [constructor|].
  by apply insert_stable_Sorted.
Qed.

End sort_facts.

Lemma StronglySorted_reverse {A} (R : relation A) (l : list A) :
  StronglySorted R l → StronglySorted (flip R) (reverse l).
Proof.
  induction 1 as [|x l Hl IH Hx]; [constructor|].
  rewrite reverse_cons. apply StronglySorted_app. split; [|split].
  - intros x1 x2 Hx1 Hx2. apply list_elem_of_singleton in Hx2 as ->.
    rewrite elem_of_reverse in Hx1. rewrite Forall_forall in Hx.
    unfold flip. by apply Hx.
  - done.
  - repeat constructor.
Qed.

(** [sorted(l, reverse=True)] on a strict weak order: no element is smaller
    than one that comes after it. *)
Lemma sorted_reverse_StronglySorted {A} (lt : relation A) `{!RelDecision lt}
    (l : list A) :
  (∀ x y, lt x y → ¬ lt y x) →
  (∀ x y z, ¬ lt y x → ¬ lt z y → ¬ lt z x) →
  StronglySorted (λ a b, ¬ lt a b) (sorted lt l true).
Proof.
  intros Hasym Htrans. simpl.
  apply (StronglySorted_reverse (λ a b, ¬ lt b a)).
  apply Sorted_StronglySorted.
  - intros x y z. apply Htrans.
  - by apply stable_sort_Sorted.
Qed.

(** ** The reporter *)

Lemma StronglySorted_iff {A} (R1 R2 : relation A) (l : list A) :
  (∀ x y, R1 x y ↔ R2 x y) → StronglySorted R1 l → StronglySorted R2 l.
Proof.
  intros HR. induction 1 as [|x l Hl IH Hx]; constructor; [done|].
  eapply Forall_impl; [done|]. intros y. apply HR.
Qed.

Section reporter_facts.
Context {Score Node : Type} `{EqDecision Score, EqDecision Node}.
Context (score_lt : relation Score) `{!RelDecision score_lt}.
Context (node_lt : relation Node) `{!RelDecision node_lt}.
Context (key : Node → nat).
Context (Hstrict : StrictOrder score_lt) (Htri : Trichotomy score_lt).
Context (Hkey : ∀ a b, node_lt a b ↔ (key a < key b)%nat).

Local Abbreviation tlt := (tuple_lt score_lt node_lt).
Local Abbreviation before := (ranks_before score_lt key).

Lemma score_lt_irrefl (s : Score) : ¬ score_lt s s.
Proof. apply (irreflexivity score_lt). Qed.

Lemma score_lt_asym (s t : Score) : score_lt s t → ¬ score_lt t s.
Proof.
  intros Hst Hts. apply (score_lt_irrefl s). by transitivity t.
Qed.

Lemma tuple_lt_iff (x y : Score * Node) :
  tlt x y ↔ score_lt x.1 y.1 ∨ (x.1 = y.1 ∧ (key x.2 < key y.2)%nat).
Proof.
  unfold tuple_lt. destruct (decide (x.1 = y.1)) as [He|Hne].
  - destruct (decide (x.2 = y.2)) as [Hn|Hn].
    + split; [done|]. intros [Hlt|[_ Hlt]].
      * rewrite He in Hlt. by apply score_lt_irrefl in Hlt.
      * rewrite Hn in Hlt. lia.
    + rewrite Hkey. split; [by right|]. intros [Hlt|[_ Hlt]]; [|done].
      rewrite He in Hlt. by apply score_lt_irrefl in Hlt.
  - split; [by left|]. intros [Hlt|[He _]]; done.
Qed.

Lemma not_tuple_lt_iff (x y : Score * Node) : ¬ tlt x y ↔ before x y.
Proof.
  rewrite tuple_lt_iff. unfold ranks_before.
  destruct (trichotomy score_lt x.1 y.1) as [Hlt|[He|Hgt]].
  - split; [tauto|]. intros [Hgt|[He _]].
    + by apply score_lt_asym in Hgt.
    + rewrite He in Hlt. by apply score_lt_irrefl in Hlt.
  - split.
    + intros Hn. right. split; [done|].
      destruct (decide (key x.2 < key y.2)%nat); [tauto|lia].
    + intros [Hgt|[_ Hle]].
      * rewrite He in Hgt. by apply score_lt_irrefl in Hgt.
      * intros [Hlt|[_ Hlt]]; [|lia].
        rewrite He in Hlt. by apply score_lt_irrefl in Hlt.
  - split; [by left|]. intros _ [Hlt|[He _]].
    + by apply score_lt_asym in Hlt.
    + rewrite He in Hgt. by apply score_lt_irrefl in Hgt.
Qed.

Lemma ranks_before_trans (x y z : Score * Node) :
  before x y → before y z → before x z.
Proof.
  unfold ranks_before. intros [Hxy|[Exy Kxy]] [Hyz|[Eyz Kyz]].
  - left. by transitivity y.1.
  - left. by rewrite <- Eyz.
  - left. by rewrite Exy.
  - right. split; [congruence|lia].
Qed.

Lemma tuple_lt_asym (x y : Score * Node) : tlt x y → ¬ tlt y x.
Proof.
  rewrite !tuple_lt_iff. intros [Hlt|[He Hk]] [Hlt'|[He' Hk']].
  - by apply score_lt_asym in Hlt.
  - rewrite He' in Hlt. by apply score_lt_irrefl in Hlt.
  - rewrite He in Hlt'. by apply score_lt_irrefl in Hlt'.
  - lia.
Qed.

(** The sorted list: a rearrangement in which every element may stand
    before all that follow it. *)
Lemma sorted_pairs_spec (pairs : list (Score * Node)) :
  sorted tlt pairs true ≡ₚ pairs ∧
  StronglySorted before (sorted tlt pairs true).
Proof.
  split; [apply sorted_Permutation|].
  apply (StronglySorted_iff (λ a b, ¬ tlt a b)); [apply not_tuple_lt_iff|].
  apply sorted_reverse_StronglySorted; [apply tuple_lt_asym|].
  intros x y z. rewrite !not_tuple_lt_iff.
  intros Hyx Hzy. by apply (ranks_before_trans z y x).
Qed.

Lemma scored_lookup (ranks : gmap nat Score) (ws : list Node)
    (pairs : list (Score * Node)) :
  scored ranks ws = Some pairs →
  ∀ i, pairs !! i = (n ← ws !! i; s ← ranks !! i; Some (s, n)).
Proof.
  unfold scored. intros Hm%mapM_Some i.
  rewrite Forall2_lookup in Hm. specialize (Hm i).
  rewrite enumerate_lookup in Hm.
  destruct (ws !! i) as [n|]; simpl in *; inv Hm; [|done].
  match goal with H : _ = Some _ |- _ => rename H into Hf end.
  destruct (ranks !! i); simpl in *; by simplify_eq.
Qed.

Lemma scored_is_Some (ranks : gmap nat Score) (ws : list Node) :
  (∀ i, (i < length ws)%nat → is_Some (ranks !! i)) →
  is_Some (scored ranks ws).
Proof.
  intros Hr. unfold scored. apply mapM_is_Some_2, Forall_lookup.
  intros i [j n] Hi. rewrite enumerate_lookup in Hi.
  destruct (ws !! i) as [m|] eqn:Hm; [|done].
  simpl in Hi. injection Hi as <- <-.
  destruct (Hr i) as [s Hs]; [by eapply lookup_lt_Some|].
  simpl. rewrite Hs. by eexists.
Qed.

End reporter_facts.


Lemma Z_lt_strict : StrictOrder Z.lt.
Proof. split; [intros x Hx; lia|intros x y z ? ?; lia]. Defined.

Lemma Z_lt_trichotomy : Trichotomy Z.lt.
Proof. intros x y. lia. Defined.


(** ** Independence of the order in which the set is iterated *)

Lemma mapM_Permutation {A B} (g : A → option B) (l1 l2 : list A) :
  l1 ≡ₚ l2 →
  match mapM g l1, mapM g l2 with
  | Some r1, Some r2 => r1 ≡ₚ r2
  | None, None => True
  | _, _ => False
  end.
Proof.
  induction 1 as [|x l l' Hl IH|x y l|l l' l'' H1 IH1 H2 IH2]; simpl.
  - done.
  - destruct (g x); simpl; [|done].
    destruct (mapM g l), (mapM g l'); simpl; try done. by constructor.
  - destruct (g x), (g y); simpl; try done;
      destruct (mapM g l); simpl; try done. apply perm_swap.
  - destruct (mapM g l), (mapM g l'), (mapM g l''); try done.
    by etrans.
Qed.

Lemma scored_by_node {Score Node} (ranks : gmap nat Score) (ws : list Node)
    (sc : Node → option Score) :
  (∀ i n, ws !! i = Some n → ranks !! i = sc n) →
  scored ranks ws = mapM (λ n, s ← sc n; Some (s, n)) ws.
Proof.
  unfold scored, Py.enumerate.
  assert (Hgen : ∀ (l : list Node) (h : nat → nat),
    (∀ i n, l !! i = Some n → ranks !! h i = sc n) →
    mapM (λ '(i, s), r ← ranks !! i; Some (r, s)) (imap (λ i n, (h i, n)) l)
    = mapM (λ n, s ← sc n; Some (s, n)) l).
  { induction l as [|x l IH]; intros h Hh; [done|].
    simpl. rewrite (Hh 0%nat x eq_refl).
    change (imap ((λ (i : nat) (n : Node), (h i, n)) ∘ S) l)
      with (imap (λ (i : nat) (n : Node), ((h ∘ S) i, n)) l).
    rewrite (IH (h ∘ S)); [done|]. intros i n Hi. apply (Hh (S i) n Hi). }
  intros Hsc. apply (Hgen ws (λ i, i) Hsc).
Qed.

Lemma mapM_scored_nodes {Score Node} (sc : Node → option Score)
    (ws : list Node) (r : list (Score * Node)) :
  mapM (λ n, s ← sc n; Some (s, n)) ws = Some r → snd <$> r = ws.
Proof.
  intros Hr. eapply mapM_fmap_Some_inv; [exact Hr|].
  intros n [s m] Hn. destruct (sc n); simpl in Hn; by simplify_eq.
Qed.

Section order_independence.
Context {Score Node : Type} `{EqDecision Score, EqDecision Node}.
Context (score_lt : relation Score) `{!RelDecision score_lt}.
Context (node_lt : relation Node) `{!RelDecision node_lt}.
Context (key : Node → nat).
Context (Hstrict : StrictOrder score_lt) (Htri : Trichotomy score_lt).
Context (Hkey : ∀ a b, node_lt a b ↔ (key a < key b)%nat).

(** Whatever the order the nodes are enumerated in, the report is the
    same, provided distinct nodes have distinct keys and each node gets
    the same score (or none) in both enumerations. *)
Lemma top_keywords_order_independent (nodes1 nodes2 : list Node)
    (ranks1 ranks2 : gmap nat Score) :
  nodes1 ≡ₚ nodes2 → NoDup nodes1 →
  (∀ a b, a ∈ nodes1 → b ∈ nodes1 → key a = key b → a = b) →
  (∀ i j n, nodes1 !! i = Some n → nodes2 !! j = Some n →
            ranks1 !! i = ranks2 !! j) →
  top_keywords score_lt node_lt ranks1 nodes1
  = top_keywords score_lt node_lt ranks2 nodes2.
Proof.
  intros Hperm Hnd Hinj Hsame.
  set (sc := λ n, list_find (λ m, m = n) nodes1 ≫= λ im, ranks1 !! im.1).
  assert (Hsc1 : ∀ i n, nodes1 !! i = Some n → ranks1 !! i = sc n).
  { intros i n Hi. unfold sc.
    destruct (list_find_eq_first nodes1 n) as (k & -> & Hk);
      [by eapply list_elem_of_lookup_2|].
    simpl. by rewrite (NoDup_lookup nodes1 i k n Hnd Hi Hk). }
  assert (Hsc2 : ∀ j n, nodes2 !! j = Some n → ranks2 !! j = sc n).
  { intros j n Hj. unfold sc.
    destruct (list_find_eq_first nodes1 n) as (k & -> & Hk).
    { rewrite Hperm. by eapply list_elem_of_lookup_2. }
    simpl. symmetry. by apply (Hsame k j n). }
  unfold top_keywords, ranked.
  rewrite (scored_by_node ranks1 nodes1 sc Hsc1).
  rewrite (scored_by_node ranks2 nodes2 sc Hsc2).
  pose proof (mapM_Permutation (λ n, s ← sc n; Some (s, n))
                nodes1 nodes2 Hperm) as Hm.
  destruct (mapM _ nodes1) as [r1|] eqn:Hr1,
           (mapM _ nodes2) as [r2|] eqn:Hr2; try done.
  simpl. do 2 f_equal.
  destruct (sorted_pairs_spec score_lt node_lt key Hstrict Htri Hkey r1)
    as [Hp1 Hs1].
  destruct (sorted_pairs_spec score_lt node_lt key Hstrict Htri Hkey r2)
    as [Hp2 Hs2].
  apply (StronglySorted_unique_strong (ranks_before score_lt key));
    [|done|done|by rewrite Hp1, Hp2].
  intros [s1 n1] [s2 n2] Hx1 Hx2 Hb12 Hb21.
  assert (Hn1 : n1 ∈ nodes1).
  { rewrite <- (mapM_scored_nodes sc nodes1 r1 Hr1).
    apply (list_elem_of_fmap_2' snd _ (s1, n1)); [by rewrite <- Hp1|done]. }
  assert (Hn2 : n2 ∈ nodes1).
  { rewrite Hperm, <- (mapM_scored_nodes sc nodes2 r2 Hr2).
    apply (list_elem_of_fmap_2' snd _ (s2, n2)); [by rewrite <- Hp2|done]. }
  unfold ranks_before in Hb12, Hb21. simpl in *.
  destruct Hb12 as [Hlt|[-> Hk12]], Hb21 as [Hlt'|[He Hk21]].
  - by apply (score_lt_asym score_lt Hstrict) in Hlt.
  - subst. by apply (score_lt_irrefl score_lt Hstrict) in Hlt.
  - by apply (score_lt_irrefl score_lt Hstrict) in Hlt'.
  - f_equal. apply Hinj; [done|done|lia].
Qed.

End order_independence.


Lemma words_in_doc (d : Doc) (t : Token) : t ∈ words d → t ∈ d.
Proof.
  rewrite words_elem_of. unfold gatsby_filt.
  by intros [_ ?]%list_elem_of_filter.
Qed.



Lemma words_empty : words (parser []) = ∅.
Proof. done. Qed.

(** C8 (as amended).  For the empty text the set of retained tokens is
    empty and the frame has no rows; the cells raise no error of their
    own: the outcome is whatever the ranking engine does on the empty
    matrix, and when the engine returns a dictionary of scores, whatever
    it holds, the report is the empty list. *)
Theorem C8_empty_text {Score : Type} `{EqDecision Score}
    (score_lt : relation Score) `{!RelDecision score_lt}
    (pagerank : list (list Z) → option (gmap nat Score)) :
  words (parser []) = ∅ ∧
  values (adjacency (parser [])) = [] ∧
  keywords score_lt pagerank (parser []) = (pagerank [] ≫= λ _, Some []).
Proof.
  split; [apply words_empty|].
  assert (Hv : values (adjacency (parser [])) = []).
  { unfold adjacency, cooccurrence. rewrite words_empty, elements_empty.
    done. }
  split; [done|]. unfold keywords. rewrite Hv, words_empty, elements_empty.
  by destruct (pagerank []).
Qed.

(** C8 as stated fails: on the empty text, with an engine that returns the
    empty dictionary for the empty graph, the cells end with the empty
    report, not with an error. *)
Lemma C8_counterexample :
  words (parser []) = ∅ ∧
  keywords Z.lt (λ _, Some (∅ : gmap nat Z)) (parser []) = Some [].
Proof. split; [apply words_empty|by vm_compute]. Qed.

(** * Further properties of the cells *)

(** ** The unigram frame *)

Lemma gatsby_filt_NoDup (ws : list Tagged) : NoDup (gatsby_filt (parser ws)).
Proof. apply NoDup_filter, parser_NoDup. Qed.

Lemma words_position (ws : list Tagged) (a : Token) :
  a ∈ words (parser ws) → parser ws !! tok_i a = Some a.
Proof.
  intros [i Hi]%words_in_doc%list_elem_of_lookup.
  by rewrite (parser_tok_i ws i a Hi).
Qed.

(** The cell of two retained tokens, read by their positions. *)
Lemma adjacency_loc (ws : list Tagged) (a b : Token) :
  a ∈ words (parser ws) → b ∈ words (parser ws) →
  loc (adjacency (parser ws)) a b
  = Some (if decide (tok_i a < tok_i b ≤ tok_i a + 4)%nat then 1 else 0).
Proof.
  intros Ha Hb.
  pose proof (cooccurrence_represents 4 ws) as Hrep. cbv zeta in Hrep.
  unfold adjacency.
  rewrite (represents_loc _ _ _ _ a b Hrep) by (by apply elem_of_elements).
  f_equal.
  apply (unigram_weight ws 4 (tok_i a) (tok_i b) a b);
    auto using words_position; by apply words_elem_of.
Qed.

(** The unigram frame is forward only: the diagonal is zero, every cell is
    0 or 1, and when the cell from [a] to [b] is 1 the cell from [b] to [a]
    is 0. *)
Theorem adjacency_forward_only (ws : list Tagged) (a b : Token) :
  a ∈ words (parser ws) → b ∈ words (parser ws) →
  loc (adjacency (parser ws)) a a = Some 0 ∧
  (loc (adjacency (parser ws)) a b = Some 0 ∨
   loc (adjacency (parser ws)) a b = Some 1) ∧
  (loc (adjacency (parser ws)) a b = Some 1 →
   loc (adjacency (parser ws)) b a = Some 0).
Proof.
  intros Ha Hb. rewrite !adjacency_loc by done. split; [|split].
  - rewrite decide_False; [done|lia].
  - case_decide; auto.
  - case_decide; [|done]. intros _. rewrite decide_False; [done|lia].
Qed.

Lemma adjacency_forward_only_witness :
  loc (adjacency (parser the_cat_sat)) cat cat = Some 0 ∧
  (loc (adjacency (parser the_cat_sat)) cat dog = Some 0 ∨
   loc (adjacency (parser the_cat_sat)) cat dog = Some 1) ∧
  (loc (adjacency (parser the_cat_sat)) cat dog = Some 1 →
   loc (adjacency (parser the_cat_sat)) dog cat = Some 0).
Proof.
  apply (adjacency_forward_only the_cat_sat cat dog); by vm_compute.
Defined.

(** The set of retained tokens never merges two occurrences: it has as
    many members as the text has tokens that are nouns and not stop
    words. *)
Theorem words_size_occurrences (ws : list Tagged) :
  size (words (parser ws)) = length (gatsby_filt (parser ws)) ∧
  (size (words (parser ws)) ≤ length ws)%nat.
Proof.
  assert (Hsz : size (words (parser ws)) = length (gatsby_filt (parser ws))).
  { unfold words. apply size_list_to_set, gatsby_filt_NoDup. }
  split; [done|]. rewrite Hsz, <- (parser_length ws).
  unfold gatsby_filt. apply length_filter.
Qed.

(** The labels the unigram loop addresses with [.loc] are labels of the
    frame, at every retained position: the row label is in the index and
    every neighbour is among the columns, so no [KeyError] can arise. *)
Theorem adjacency_labels_present (ws : list Tagged) (i : nat) (word : Token) :
  let gatsby := parser ws in
  gatsby !! i = Some word → word ∈ gatsby_filt gatsby →
  index (adjacency gatsby) = elements (words gatsby) ∧
  columns (adjacency gatsby) = elements (words gatsby) ∧
  word ∈ index (adjacency gatsby) ∧
  ∀ n, n ∈ neighbors (nextwords 4 gatsby i) (gatsby_filt gatsby) →
       n ∈ columns (adjacency gatsby).
Proof.
  intros gatsby Hi Hword.
  destruct (cooccurrence_represents 4 ws) as (Hidx & Hcol & _).
  fold gatsby in Hidx, Hcol. unfold adjacency. rewrite Hidx, Hcol.
  split; [done|]. split; [done|]. split.
  - by apply elem_of_elements, words_elem_of.
  - intros n. rewrite neighbors_filter.
    intros [Hn _]%list_elem_of_filter.
    by apply elem_of_elements, words_elem_of.
Qed.

Lemma adjacency_labels_present_witness :
  index (adjacency (parser the_cat_sat)) = elements (words (parser the_cat_sat)) ∧
  columns (adjacency (parser the_cat_sat))
  = elements (words (parser the_cat_sat)) ∧
  cat ∈ index (adjacency (parser the_cat_sat)) ∧
  ∀ n, n ∈ neighbors (nextwords 4 (parser the_cat_sat) 1)
                     (gatsby_filt (parser the_cat_sat)) →
       n ∈ columns (adjacency (parser the_cat_sat)).
Proof.
  apply (adjacency_labels_present the_cat_sat 1 cat); [reflexivity|].
  apply (bool_decide_unpack _). by vm_compute.
Defined.

Lemma Zsum_indicator {A} (P : A → Prop) `{!∀ x, Decision (P x)}
    (l : list A) :
  Zsum ((λ b, if decide (P b) then 1 else 0) <$> l)
  = Z.of_nat (length (filter P l)).
Proof.
  induction l as [|x l IH]; [done|].
  rewrite fmap_cons, Zsum_cons, IH, filter_cons.
  case_decide; simpl; lia.
Qed.

Lemma Zsum_indicator_le {A} `{EqDecision A} (S labels : list A) :
  NoDup labels →
  0 ≤ Zsum ((λ b, if decide (b ∈ S) then 1 else 0) <$> labels)
    ≤ Z.of_nat (length S).
Proof.
  intros Hnd. rewrite Zsum_indicator. split; [lia|].
  apply inj_le, submseteq_length, NoDup_submseteq.
  - by apply NoDup_filter.
  - by intros x [? _]%list_elem_of_filter.
Qed.

(** Every row of the unigram frame sums to at most 4: a token has at most
    four recorded neighbours. *)
Theorem adjacency_row_sum (ws : list Tagged) (row : list Z) :
  row ∈ values (adjacency (parser ws)) → 0 ≤ Zsum row ≤ 4.
Proof.
  intros Hrow.
  destruct (cooccurrence_represents 4 ws) as (_ & _ & Hv).
  unfold adjacency in Hrow. rewrite Hv in Hrow. unfold tabulate in Hrow.
  apply list_elem_of_fmap in Hrow as (a & -> & Ha).
  apply elem_of_elements in Ha. change (Z.to_nat 4) with 4%nat.
  set (nw := take 4 (drop (S (tok_i a)) (parser ws))).
  assert (Hrow : spec_weight 4 id (parser ws)
                   (gatsby_filt (parser ws)) a
                   <$> elements (words (parser ws))
                 = (λ b, if decide (b ∈ nw) then 1 else 0)
                   <$> elements (words (parser ws))).
  { apply list_fmap_ext. intros k b Hb.
    apply list_elem_of_lookup_2, elem_of_elements in Hb.
    rewrite (unigram_weight ws 4 (tok_i a) (tok_i b) a b);
      auto using words_position; try (by apply words_elem_of).
    apply decide_ext. symmetry.
    apply window_membership. by apply words_position. }
  rewrite Hrow.
  pose proof (Zsum_indicator_le nw (elements (words (parser ws)))
                (NoDup_elements _)) as Hle.
  assert (length nw ≤ 4)%nat by (unfold nw; rewrite length_take; lia).
  lia.
Qed.

Lemma adjacency_row_sum_witness : 0 ≤ Zsum [0; 1] ≤ 4.
Proof.
  apply (adjacency_row_sum the_cat_sat [0; 1]).
  apply (bool_decide_unpack _). by vm_compute.
Defined.

(** ** The digram and trigram cells *)

(** None of the digram and trigram cells raises an [IndexError], whatever
    the text, also when it has fewer tokens than a window: every
    comprehension returns a list and both loops return a frame. *)
Theorem ngram_cells_never_raise (d : Doc) :
  is_Some (second_gats d) ∧ is_Some (shorter_gats d) ∧
  is_Some (new_gats_filt d) ∧ is_Some (adjacency_digr d) ∧
  is_Some (trig_gats d) ∧ is_Some (trig_gats_filt d) ∧
  is_Some (adjacency_trigr d).
Proof.
  destruct (new_gats_filt_eq d) as (sh & Hsh & Hnf).
  destruct (trig_gats_filt_eq d) as (tg & Htg & Htf).
  destruct (cooccurrence_digr_eq 14 d) as (? & ? & _ & _ & Hdf).
  destruct (adjacency_trigr_zero 4 d) as (? & _ & Htr).
  rewrite second_gats_eq, Hsh, Hnf, Htg, Htf.
  unfold adjacency_digr, adjacency_trigr. rewrite Hdf, Htr.
  repeat split; by eexists.
Qed.

Lemma window2_lookup (d : Doc) (i : nat) :
  (i + 2 ≤ length d)%nat →
  ∃ a b, d !! i = Some a ∧ d !! S i = Some b ∧ take 2 (drop i d) = [a; b].
Proof.
  intros Hi.
  destruct (lookup_lt_is_Some_2 d i) as [a Ha]; [lia|].
  destruct (lookup_lt_is_Some_2 d (S i)) as [b Hb]; [lia|].
  exists a, b. split; [done|]. split; [done|].
  apply list_eq. intros [|[|k]]; simpl.
  - by rewrite lookup_take_lt, lookup_drop, Nat.add_0_r by lia.
  - rewrite lookup_take_lt, lookup_drop by lia.
    by replace (i + 1)%nat with (S i) by lia.
  - by rewrite lookup_take_ge by lia.
Qed.

Lemma window3_lookup (d : Doc) (i : nat) :
  (i + 3 ≤ length d)%nat →
  ∃ a b c, d !! i = Some a ∧ d !! S i = Some b ∧ d !! S (S i) = Some c ∧
           take 3 (drop i d) = [a; b; c].
Proof.
  intros Hi.
  destruct (lookup_lt_is_Some_2 d i) as [a Ha]; [lia|].
  destruct (lookup_lt_is_Some_2 d (S i)) as [b Hb]; [lia|].
  destruct (lookup_lt_is_Some_2 d (S (S i))) as [c Hc]; [lia|].
  exists a, b, c. split; [done|]. split; [done|]. split; [done|].
  apply list_eq. intros [|[|[|k]]]; simpl.
  - by rewrite lookup_take_lt, lookup_drop, Nat.add_0_r by lia.
  - rewrite lookup_take_lt, lookup_drop by lia.
    by replace (i + 1)%nat with (S i) by lia.
  - rewrite lookup_take_lt, lookup_drop by lia.
    by replace (i + 2)%nat with (S (S i)) by lia.
  - by rewrite lookup_take_ge by lia.
Qed.

(** The retained digrams are exactly the pairs of adjacent tokens, an
    adjective followed by a noun, neither a stop word nor a punctuation
    mark, that start at least three tokens before the end of the text. *)
Theorem new_gats_filt_members (d : Doc) (s : Span) :
  ∃ nf, new_gats_filt d = Some nf ∧
    (s ∈ nf ↔
     ∃ i a b, (i + 2 < length d)%nat ∧
       d !! i = Some a ∧ d !! S i = Some b ∧ s = [a; b] ∧
       is_punct (tok a) = false ∧ is_punct (tok b) = false ∧
       is_stop (tok a) = false ∧ is_stop (tok b) = false ∧
       pos_ (tok a) = "ADJ" ∧ pos_ (tok b) = "NOUN").
Proof.
  destruct (new_gats_filt_eq d) as (sh & Hsh & Hnf).
  destruct (shorter_gats_eq d) as (sg & Hsg & Hsh').
  rewrite second_gats_eq in Hsg. simplify_eq.
  eexists. split; [done|].
  rewrite !list_elem_of_filter, list_elem_of_fmap. split.
  - intros (Hpos & Hstop & Hpunct & i & -> & [_ Hi]%elem_of_seq).
    destruct (window2_lookup d i) as (a & b & Ha & Hb & Hw); [lia|].
    rewrite Hw in *. exists i, a, b.
    unfold and_, not_punct, not_stop, has_pos, item_attr in *; simpl in *.
    destruct (is_punct (tok a)), (is_punct (tok b)),
             (is_stop (tok a)), (is_stop (tok b)); simpl in *; try done.
    repeat case_bool_decide; simpl in *; try done.
    repeat split; try done; lia.
  - intros (i & a & b & Hi & Ha & Hb & -> & Hpa & Hpb & Hsa & Hsb & Hta & Htb).
    unfold and_, not_punct, not_stop, has_pos, item_attr; simpl.
    rewrite Hpa, Hpb, Hsa, Hsb, Hta, Htb. simpl.
    repeat split; try done.
    exists i. split; [|apply elem_of_seq; lia].
    destruct (window2_lookup d i) as (a' & b' & Ha' & Hb' & Hw); [lia|].
    rewrite Hw. congruence.
Qed.

(** The retained trigrams are exactly the triples of adjacent tokens
    without a punctuation mark, whose last token is not a stop word and
    one of whose tokens is a noun, that start at least three tokens before
    the end of the text. *)
Theorem trig_gats_filt_members (d : Doc) (s : Span) :
  ∃ tf, trig_gats_filt d = Some tf ∧
    (s ∈ tf ↔
     ∃ i a b c, (i + 2 < length d)%nat ∧
       d !! i = Some a ∧ d !! S i = Some b ∧ d !! S (S i) = Some c ∧
       s = [a; b; c] ∧
       is_punct (tok a) = false ∧ is_punct (tok b) = false ∧
       is_punct (tok c) = false ∧ is_stop (tok c) = false ∧
       (pos_ (tok a) = "NOUN" ∨ pos_ (tok b) = "NOUN"
        ∨ pos_ (tok c) = "NOUN")).
Proof.
  destruct (trig_gats_filt_eq d) as (tg & Htg & Htf).
  rewrite trig_gats_eq in Htg. simplify_eq.
  eexists. split; [done|].
  rewrite !list_elem_of_filter, list_elem_of_fmap. split.
  - intros (Hfilt & Hpunct & i & -> & [_ Hi]%elem_of_seq).
    destruct (window3_lookup d i) as (a & b & c & Ha & Hb & Hc & Hw); [lia|].
    rewrite Hw in *. exists i, a, b, c.
    unfold and_, or_, not_punct, not_stop, has_pos, item_attr in *;
      simpl in *.
    destruct (is_punct (tok a)), (is_punct (tok b)), (is_punct (tok c)),
             (is_stop (tok c)); simpl in *; try done.
    repeat case_bool_decide; simpl in *; try done;
      repeat split; try done; try lia; tauto.
  - intros (i & a & b & c & Hi & Ha & Hb & Hc & -> & Hpa & Hpb & Hpc
            & Hsc & Hnoun).
    unfold and_, or_, not_punct, not_stop, has_pos, item_attr; simpl.
    rewrite Hpa, Hpb, Hpc, Hsc. simpl.
    split; [|split; [done|]].
    + repeat case_bool_decide; simpl; try done. tauto.
    + exists i. split; [|apply elem_of_seq; lia].
      destruct (window3_lookup d i) as (a' & b' & c' & Ha' & Hb' & Hc' & Hw);
        [lia|].
      rewrite Hw. congruence.
Qed.

(** A text of at most two tokens has no digram and no trigram at all, not
    even when its two tokens are an adjective and a noun: both frames are
    empty. *)
Theorem short_text_no_ngrams (d : Doc) :
  (length d ≤ 2)%nat →
  new_gats_filt d = Some [] ∧ trig_gats_filt d = Some [] ∧
  adjacency_digr d = Some (DataFrame_new [] [] 0) ∧
  adjacency_trigr d = Some (DataFrame_new [] [] 0).
Proof.
  intros Hd.
  assert (Hsg : second_gats d = Some []).
  { rewrite second_gats_eq. by replace (length d - 2)%nat with 0%nat by lia. }
  assert (Htg : trig_gats d = Some []).
  { rewrite trig_gats_eq. by replace (length d - 2)%nat with 0%nat by lia. }
  assert (Hsh : shorter_gats d = Some []).
  { unfold shorter_gats. by rewrite Hsg. }
  assert (Hnf : new_gats_filt d = Some []).
  { unfold new_gats_filt. by rewrite Hsh. }
  assert (Htf : trig_gats_filt d = Some []).
  { unfold trig_gats_filt. by rewrite Htg. }
  split; [done|]. split; [done|].
  unfold adjacency_digr, cooccurrence_digr, adjacency_trigr,
    cooccurrence_trigr.
  rewrite Hsh, Hnf, Htg, Htf. simpl.
  unfold adjacency_ngram. rewrite list_to_set_nil, elements_empty. done.
Qed.

Lemma short_text_no_ngrams_witness :
  new_gats_filt (parser [word "big" " " "ADJ"; word "dog" "" "NOUN"]) = Some [] ∧
  trig_gats_filt (parser [word "big" " " "ADJ"; word "dog" "" "NOUN"])
  = Some [] ∧
  adjacency_digr (parser [word "big" " " "ADJ"; word "dog" "" "NOUN"])
  = Some (DataFrame_new [] [] 0) ∧
  adjacency_trigr (parser [word "big" " " "ADJ"; word "dog" "" "NOUN"])
  = Some (DataFrame_new [] [] 0).
Proof.
  apply (short_text_no_ngrams
           (parser [word "big" " " "ADJ"; word "dog" "" "NOUN"])).
  simpl. lia.
Defined.

(** The trigram loop never counts a co-occurrence: for every text the
    trigram frame is square, with one row and one column for each
    retained trigram, and all its cells are zero.  (The loop enumerates
    the digrams, and no digram is a retained trigram.) *)
Theorem adjacency_trigr_all_zero (d : Doc) :
  ∃ s df, trig_gats_words d = Some s ∧ adjacency_trigr d = Some df ∧
          square_of_dimension df (size s) ∧
          Forall (Forall (λ v, v = 0)) (values df).
Proof.
  destruct (adjacency_trigr_zero 4 d) as (tf & Htf & Hdf).
  exists (list_to_set tf). eexists. split; [|split; [exact Hdf|]].
  { unfold trig_gats_words. by rewrite Htf. }
  cbv zeta.
  pose proof (represents_new
                (span_str <$> elements (list_to_set tf : gset Span))
                (span_str <$> elements (list_to_set tf : gset Span))) as Hrep.
  split.
  - pose proof (represents_square _ _ _ Hrep) as Hsq.
    by rewrite length_fmap in Hsq.
  - destruct Hrep as (_ & _ & ->). unfold tabulate.
    apply Forall_fmap, Forall_true. intros r. simpl.
    apply Forall_fmap, Forall_true. done.
Qed.

(** The labels the digram loop addresses with [.loc] are labels of the
    frame: at every retained position the row label and the label of
    every neighbour are among the labels the frame was created with, so
    no [KeyError] can arise. *)
Theorem adjacency_digr_labels_present (d : Doc) (sh nf : list Span)
    (i : nat) (digr : Span) :
  shorter_gats d = Some sh → new_gats_filt d = Some nf →
  sh !! i = Some digr → digr ∈ nf →
  ∃ df, adjacency_digr d = Some df ∧
    index df = span_str <$> elements (list_to_set nf : gset Span) ∧
    columns df = index df ∧
    span_str digr ∈ index df ∧
    ∀ n, n ∈ neighbors (nextwords 14 sh i) nf → span_str n ∈ columns df.
Proof.
  intros Hsh Hnf Hi Hdigr.
  destruct (cooccurrence_digr_eq 14 d) as (sh' & nf' & Hsh' & Hnf' & Hdf).
  simplify_eq. exists (adjacency_ngram 14 sh sh nf).
  destruct (adjacency_ngram_represents 14 sh nf) as (Hidx & Hcol & _).
  split; [done|]. rewrite Hidx, Hcol. split; [done|]. split; [done|]. split.
  - apply list_elem_of_fmap_2, elem_of_elements.
    by apply elem_of_list_to_set.
  - intros n. rewrite neighbors_filter.
    intros [Hn _]%list_elem_of_filter.
    apply list_elem_of_fmap_2, elem_of_elements.
    by apply elem_of_list_to_set.
Qed.

Lemma adjacency_digr_labels_present_witness :
  let d := parser big_dog_twice in
  let sh := default [] (shorter_gats d) in
  let nf := default [] (new_gats_filt d) in
  ∃ df, adjacency_digr d = Some df ∧
    index df = span_str <$> elements (list_to_set nf : gset Span) ∧
    columns df = index df ∧
    span_str (take 2 d) ∈ index df ∧
    ∀ n, n ∈ neighbors (nextwords 14 sh 0) nf → span_str n ∈ columns df.
Proof.
  apply (adjacency_digr_labels_present (parser big_dog_twice)).
  - vm_compute. reflexivity.
  - vm_compute. reflexivity.
  - vm_compute. reflexivity.
  - apply (bool_decide_unpack _). vm_compute. reflexivity.
Defined.

(** ** The reporter *)

Lemma scored_length {Score Node} (ranks : gmap nat Score) (ws : list Node)
    (pairs : list (Score * Node)) :
  scored ranks ws = Some pairs → length pairs = length ws.
Proof.
  unfold scored. intros Hm%length_mapM.
  unfold Py.enumerate in Hm. by rewrite length_imap in Hm.
Qed.

Lemma scored_defined_iff {Score Node} (ranks : gmap nat Score)
    (ws : list Node) :
  is_Some (scored ranks ws) ↔
  ∀ i, (i < length ws)%nat → is_Some (ranks !! i).
Proof.
  split; [|apply scored_is_Some].
  unfold scored. intros Hs%mapM_is_Some_1 i Hi.
  destruct (lookup_lt_is_Some_2 ws i Hi) as [n Hn].
  rewrite Forall_lookup in Hs.
  specialize (Hs i (i, n)). rewrite enumerate_lookup, Hn in Hs.
  specialize (Hs eq_refl). simpl in Hs.
  destruct (ranks !! i); [by eexists|by destruct Hs].
Qed.

Lemma scored_nodes {Score Node} (ranks : gmap nat Score) (ws : list Node)
    (pairs : list (Score * Node)) :
  scored ranks ws = Some pairs → snd <$> pairs = ws.
Proof.
  intros Hs. apply list_eq. intros i.
  rewrite list_lookup_fmap, (scored_lookup ranks ws pairs Hs i).
  destruct (ws !! i) as [n|] eqn:Hn; [|done]. simpl.
  destruct (proj1 (scored_defined_iff ranks ws) (mk_is_Some _ _ Hs) i)
    as [s Hsc]; [by eapply lookup_lt_Some|].
  by rewrite Hsc.
Qed.

(** The report is defined exactly when the engine's dictionary has a score
    for the index of every node (a missing index is a [KeyError]); it then
    holds the five best pairs, or all of them when there are fewer. *)
Theorem top_keywords_defined_iff {Score Node : Type}
    `{EqDecision Score, EqDecision Node}
    (score_lt : relation Score) `{!RelDecision score_lt}
    (node_lt : relation Node) `{!RelDecision node_lt}
    (ranks : gmap nat Score) (nodes : list Node) :
  (is_Some (top_keywords score_lt node_lt ranks nodes) ↔
   ∀ i, (i < length nodes)%nat → is_Some (ranks !! i)) ∧
  (∀ out, top_keywords score_lt node_lt ranks nodes = Some out →
          length out = (5 `min` length nodes)%nat).
Proof.
  unfold top_keywords, ranked. split.
  - rewrite <- scored_defined_iff.
    destruct (scored ranks nodes); simpl; split; intros [? ?]; by eauto.
  - intros out Hout.
    destruct (scored ranks nodes) as [pairs|] eqn:Hp; simplify_eq/=.
    rewrite (slice_to_nonneg _ 5), length_take.
    pose proof (Permutation_length
                  (sorted_Permutation (tuple_lt score_lt node_lt) pairs true))
      as Hlen.
    simpl in Hlen. rewrite Hlen.
    by rewrite (scored_length ranks nodes pairs Hp).
Qed.

(** Every reported pair is a node of the input with the score the engine
    gave its index, and no node is reported twice. *)
Theorem top_keywords_nodes {Score Node : Type}
    `{EqDecision Score, EqDecision Node}
    (score_lt : relation Score) `{!RelDecision score_lt}
    (node_lt : relation Node) `{!RelDecision node_lt}
    (ranks : gmap nat Score) (nodes : list Node)
    (out : list (Score * Node)) :
  NoDup nodes →
  top_keywords score_lt node_lt ranks nodes = Some out →
  NoDup (snd <$> out) ∧
  ∀ s n, (s, n) ∈ out →
         ∃ i, nodes !! i = Some n ∧ ranks !! i = Some s.
Proof.
  intros Hnd Hout. unfold top_keywords, ranked in Hout.
  destruct (scored ranks nodes) as [pairs|] eqn:Hp; simplify_eq/=.
  rewrite (slice_to_nonneg _ 5).
  set (all := reverse (stable_sort (tuple_lt score_lt node_lt)
                                   (reverse pairs))).
  assert (Hperm : all ≡ₚ pairs)
    by apply (sorted_Permutation (tuple_lt score_lt node_lt) pairs true).
  split.
  - apply (sublist_NoDup _ (snd <$> all)).
    + by rewrite Hperm, (scored_nodes ranks nodes pairs Hp).
    + apply fmap_sublist, sublist_take.
  - intros s n Hin.
    assert (Hin' : (s, n) ∈ pairs).
    { rewrite <- Hperm. eapply elem_of_sublist; [done|apply sublist_take]. }
    apply list_elem_of_lookup in Hin' as [i Hi].
    rewrite (scored_lookup ranks nodes pairs Hp i) in Hi. exists i.
    destruct (nodes !! i) as [m|]; simpl in Hi; [|done].
    destruct (ranks !! i) as [r|]; simpl in Hi; [|done]. by simplify_eq.
Qed.

Lemma top_keywords_nodes_witness :
  NoDup (snd <$> [(3, dog); (3, cat)]) ∧
  ∀ s n, (s, n) ∈ [(3, dog); (3, cat)] →
         ∃ i, [cat; dog] !! i = Some n
              ∧ ({[0%nat := 3; 1%nat := 3]} : gmap nat Z) !! i = Some s.
Proof.
  apply (top_keywords_nodes Z.lt token_lt {[0%nat := 3; 1%nat := 3]}
           [cat; dog]).
  - apply (bool_decide_unpack _). by vm_compute.
  - by vm_compute.
Defined.

(** The pair printed first has the highest score, and among the nodes of
    that score it is the greatest in the order of the nodes (for tokens
    and spans: the last in the text). *)
Theorem top_keywords_head_max {Score Node : Type}
    `{EqDecision Score, EqDecision Node}
    (score_lt : relation Score) `{!RelDecision score_lt}
    (node_lt : relation Node) `{!RelDecision node_lt} (key : Node → nat)
    (ranks : gmap nat Score) (nodes : list Node)
    (x : Score * Node) (out : list (Score * Node)) :
  StrictOrder score_lt → Trichotomy score_lt →
  (∀ a b, node_lt a b ↔ (key a < key b)%nat) →
  top_keywords score_lt node_lt ranks nodes = Some (x :: out) →
  ∀ i n s, nodes !! i = Some n → ranks !! i = Some s →
           ¬ score_lt x.1 s ∧ (s = x.1 → (key n ≤ key x.2)%nat).
Proof.
  intros Hstrict Htri Hkey Hout i n s Hn Hs.
  unfold top_keywords, ranked in Hout.
  destruct (scored ranks nodes) as [pairs|] eqn:Hp; simplify_eq/=.
  rewrite (slice_to_nonneg _ 5) in Hout.
  destruct (sorted_pairs_spec score_lt node_lt key Hstrict Htri Hkey pairs)
    as [Hperm Hsorted].
  simpl in Hperm, Hsorted.
  destruct (reverse (stable_sort _ (reverse pairs))) as [|y rest] eqn:Hall;
    [done|].
  simpl in Hout. injection Hout as Hy _. subst y.
  assert (Hin : (s, n) ∈ x :: rest).
  { rewrite Hperm. apply list_elem_of_lookup. exists i.
    by rewrite (scored_lookup ranks nodes pairs Hp i), Hn, Hs. }
  apply StronglySorted_cons in Hsorted as [Hhd _].
  rewrite Forall_forall in Hhd.
  apply elem_of_cons in Hin as [<-|Hin].
  - split; [apply (score_lt_irrefl score_lt Hstrict)|done].
  - destruct (Hhd _ Hin) as [Hlt|[He Hk]]; simpl in *.
    + split; [by apply (score_lt_asym score_lt Hstrict)|].
      intros ->. by apply (score_lt_irrefl score_lt Hstrict) in Hlt.
    + rewrite He. split; [apply (score_lt_irrefl score_lt Hstrict)|done].
Qed.

Lemma top_keywords_head_max_witness :
  ¬ 3 < 3 ∧ (3 = 3 → (tok_i cat ≤ tok_i dog)%nat).
Proof.
  apply (top_keywords_head_max Z.lt token_lt tok_i
           {[0%nat := 3; 1%nat := 3]} [cat; dog] (3, dog) [(3, cat)]
           Z_lt_strict Z_lt_trichotomy (λ a b, iff_refl _)
           ltac:(by vm_compute) 0%nat cat 3);
    reflexivity.
Defined.

(** ** Sorting pairs under a total order of the nodes *)

Section total_reporter_facts.
Context {Score Node : Type} `{EqDecision Score, EqDecision Node}.
Context (score_lt : relation Score) `{!RelDecision score_lt}.
Context (node_lt : relation Node) `{!RelDecision node_lt}.
Context (Hstrict : StrictOrder score_lt) (Htri : Trichotomy score_lt).
Context (Hnstrict : StrictOrder node_lt) (Hntri : Trichotomy node_lt).

Local Abbreviation tlt := (tuple_lt score_lt node_lt).

Lemma tuple_lt_total_iff (x y : Score * Node) :
  tlt x y ↔ score_lt x.1 y.1 ∨ (x.1 = y.1 ∧ node_lt x.2 y.2).
Proof.
  unfold tuple_lt. destruct (decide (x.1 = y.1)) as [He|Hne].
  - destruct (decide (x.2 = y.2)) as [Hn|Hn].
    + split; [done|]. intros [Hlt|[_ Hlt]].
      * rewrite He in Hlt. by apply (irreflexivity score_lt) in Hlt.
      * rewrite Hn in Hlt. by apply (irreflexivity node_lt) in Hlt.
    + split; [by right|]. intros [Hlt|[_ Hlt]]; [|done].
      rewrite He in Hlt. by apply (irreflexivity score_lt) in Hlt.
  - split; [by left|]. intros [Hlt|[He _]]; done.
Qed.

Lemma tuple_lt_total_trans (x y z : Score * Node) :
  tlt x y → tlt y z → tlt x z.
Proof.
  rewrite !tuple_lt_total_iff. intros [Hxy|[Exy Nxy]] [Hyz|[Eyz Nyz]].
  - left. by transitivity y.1.
  - left. by rewrite <- Eyz.
  - left. by rewrite Exy.
  - right. split; [congruence|by transitivity y.2].
Qed.

Lemma tuple_lt_total_irrefl (x : Score * Node) : ¬ tlt x x.
Proof.
  rewrite tuple_lt_total_iff. intros [Hlt|[_ Hlt]].
  - by apply (irreflexivity score_lt) in Hlt.
  - by apply (irreflexivity node_lt) in Hlt.
Qed.

Lemma tuple_lt_total_trichotomy (x y : Score * Node) :
  tlt x y ∨ x = y ∨ tlt y x.
Proof.
  rewrite !tuple_lt_total_iff. destruct x as [s n], y as [s' n']. simpl.
  destruct (trichotomy score_lt s s') as [?|[->|?]]; [by auto| |by auto].
  destruct (trichotomy node_lt n n') as [?|[->|?]]; by auto.
Qed.

Lemma sorted_pairs_total (pairs : list (Score * Node)) :
  StronglySorted (λ a b, ¬ tlt a b) (sorted tlt pairs true).
Proof.
  apply sorted_reverse_StronglySorted.
  - intros x y Hxy Hyx. apply (tuple_lt_total_irrefl x).
    by apply (tuple_lt_total_trans x y x).
  - intros x y z Hyx Hzy Hzx.
    destruct (tuple_lt_total_trichotomy y z) as [Hyz|[->|Hzy']]; [|done..].
    apply Hyx. by apply (tuple_lt_total_trans y z x).
Qed.

End total_reporter_facts.

Lemma code_points_inj (a b : string) : code_points a = code_points b → a = b.
Proof.
  unfold code_points. intros Hab.
  rewrite <- (String.string_of_list_ascii_of_string a),
          <- (String.string_of_list_ascii_of_string b).
  f_equal. revert Hab.
  generalize (String.list_ascii_of_string a) (String.list_ascii_of_string b).
  induction l as [|x l IH]; intros [|y k] Hxy; simplify_eq/=; [done|].
  f_equal; [|by apply IH].
  rewrite <- (Ascii.ascii_nat_embedding x), <- (Ascii.ascii_nat_embedding y).
  by f_equal.
Qed.

Lemma str_lt_strict : StrictOrder str_lt.
Proof.
  split.
  - intros a. unfold complement, str_lt. apply (irreflexivity lexico).
  - intros a b c. unfold str_lt. apply (transitivity (R := lexico)).
Qed.

Lemma str_lt_trichotomy : Trichotomy str_lt.
Proof.
  intros a b. unfold str_lt.
  destruct (trichotomy lexico (code_points a) (code_points b))
    as [?|[?%code_points_inj|?]]; auto.
Qed.

(** ** The sentence cell *)

(** The sentence cell fails exactly when there is no sentence
    ([IndexError]) or the engine has no score for some sentence
    ([KeyError]).  Otherwise it prints a sentence of the text with the
    score of its index, and no sentence has a higher score. *)
Theorem top_sentence_spec {Score : Type} `{EqDecision Score}
    (score_lt : relation Score) `{!RelDecision score_lt}
    (ranks : gmap nat Score) (sentences : list string) :
  StrictOrder score_lt → Trichotomy score_lt →
  (top_sentence score_lt ranks sentences = None ↔
   sentences = [] ∨
   ∃ i, (i < length sentences)%nat ∧ ranks !! i = None) ∧
  (∀ r s, top_sentence score_lt ranks sentences = Some (r, s) →
     (∃ i, sentences !! i = Some s ∧ ranks !! i = Some r) ∧
     ∀ i r', (i < length sentences)%nat → ranks !! i = Some r' →
             ¬ score_lt r r').
Proof.
  intros Hstrict Htri. unfold top_sentence, ranked.
  destruct (scored ranks sentences) as [pairs|] eqn:Hp; simpl.
  - set (all := reverse (stable_sort (tuple_lt score_lt str_lt)
                                     (reverse pairs))).
    assert (Hperm : all ≡ₚ pairs)
      by apply (sorted_Permutation (tuple_lt score_lt str_lt) pairs true).
    pose proof (sorted_pairs_total score_lt str_lt Hstrict Htri
                  str_lt_strict str_lt_trichotomy pairs) as Hsorted.
    simpl in Hsorted. fold all in Hsorted.
    pose proof (scored_length ranks sentences pairs Hp) as Hlen.
    pose proof (Permutation_length Hperm) as Hlen'.
    split.
    + split.
      * intros Hnil. left. destruct all; [|done].
        destruct sentences; [done|]. simpl in *. lia.
      * intros [->|(i & Hi & Hnone)].
        -- destruct all; [done|]. simpl in *. lia.
        -- destruct (proj1 (scored_defined_iff ranks sentences)
                       (mk_is_Some _ _ Hp) i Hi) as [? ?]. congruence.
    + intros r s Hhd. destruct all as [|x rest] eqn:Hall; [done|].
      simpl in Hhd. injection Hhd as ->.
      assert (Hin : ∀ y, y ∈ pairs ↔ ∃ i, sentences !! i = Some y.2
                                        ∧ ranks !! i = Some y.1).
      { intros [r' s']. rewrite list_elem_of_lookup. simpl.
        split; intros [i Hi]; exists i.
        - rewrite (scored_lookup ranks sentences pairs Hp i) in Hi.
          destruct (sentences !! i); simpl in Hi; [|done].
          destruct (ranks !! i); simpl in Hi; [|done]. by simplify_eq.
        - rewrite (scored_lookup ranks sentences pairs Hp i).
          destruct Hi as [-> ->]. done. }
      split.
      * apply (Hin (r, s)). rewrite <- Hperm. left.
      * intros i r' Hi Hr'.
        destruct (lookup_lt_is_Some_2 sentences i Hi) as [s' Hs'].
        assert (Hy : (r', s') ∈ (r, s) :: rest).
        { rewrite Hperm. apply (Hin (r', s')). eauto. }
        apply StronglySorted_cons in Hsorted as [Hhd _].
        rewrite Forall_forall in Hhd.
        apply elem_of_cons in Hy as [Hy|Hy].
        -- injection Hy as -> _. apply (irreflexivity score_lt).
        -- intros Hlt. apply (Hhd _ Hy).
           apply (tuple_lt_total_iff score_lt str_lt Hstrict str_lt_strict).
           by left.
  - split; [|done]. split; [|done]. intros _. right.
    unfold scored in Hp. apply mapM_None_1, Exists_exists in Hp.
    destruct Hp as ([i s] & Hin & Hnone).
    apply list_elem_of_lookup in Hin as [k Hk].
    rewrite enumerate_lookup in Hk.
    destruct (sentences !! k) as [s'|] eqn:Hs; simpl in Hk; [|done].
    injection Hk as <- <-. exists k. split; [by eapply lookup_lt_Some|].
    by destruct (ranks !! k).
Qed.

Lemma top_sentence_spec_witness :
  (top_sentence Z.lt ({[0%nat := 1; 1%nat := 2]} : gmap nat Z)
                ["a b."; "c d."] = None ↔
   ["a b."; "c d."] = [] ∨
   ∃ i, (i < length ["a b."; "c d."])%nat
        ∧ ({[0%nat := 1; 1%nat := 2]} : gmap nat Z) !! i = None) ∧
  (∀ r s, top_sentence Z.lt ({[0%nat := 1; 1%nat := 2]} : gmap nat Z)
                       ["a b."; "c d."] = Some (r, s) →
     (∃ i, ["a b."; "c d."] !! i = Some s
           ∧ ({[0%nat := 1; 1%nat := 2]} : gmap nat Z) !! i = Some r) ∧
     ∀ i r', (i < length ["a b."; "c d."])%nat →
             ({[0%nat := 1; 1%nat := 2]} : gmap nat Z) !! i = Some r' →
             ¬ r < r').
Proof.
  apply (top_sentence_spec Z.lt).
  - exact Z_lt_strict.
  - exact Z_lt_trichotomy.
Defined.

(** ** The regression notebook *)


(** ** The digram report *)

Lemma retained_digram_shape (d : Doc) (nf : list Span) (s : Span) :
  new_gats_filt d = Some nf → s ∈ nf →
  ∃ i a b, d !! i = Some a ∧ d !! S i = Some b ∧ s = [a; b].
Proof.
  intros Hnf Hs.
  destruct (new_gats_filt_eq d) as (sh & Hsh & Hnf').
  destruct (shorter_gats_eq d) as (sg & Hsg & Hsh').
  rewrite second_gats_eq in Hsg. simplify_eq.
  rewrite !list_elem_of_filter, list_elem_of_fmap in Hs.
  destruct Hs as (_ & _ & _ & i & -> & [_ Hi]%elem_of_seq).
  destruct (window2_lookup d i) as (a & b & Ha & Hb & Hw); [lia|].
  by exists i, a, b.
Qed.

Lemma retained_digram_start_inj (ws : list Tagged) (nf : list Span)
    (s t : Span) :
  new_gats_filt (parser ws) = Some nf → s ∈ nf → t ∈ nf →
  span_start s = span_start t → s = t.
Proof.
  intros Hnf Hs Ht Hst.
  destruct (retained_digram_shape _ nf s Hnf Hs)
    as (i & a & b & Ha & Hb & ->).
  destruct (retained_digram_shape _ nf t Hnf Ht)
    as (j & a' & b' & Ha' & Hb' & ->).
  simpl in Hst.
  rewrite (parser_tok_i ws i a Ha), (parser_tok_i ws j a' Ha') in Hst.
  subst j. congruence.
Qed.

(** The digram report does not depend on the order the set of retained
    digrams is iterated in: two runs that give every digram the same score
    print the same top five. *)
Theorem ranked_digr_deterministic {Score : Type} `{EqDecision Score}
    (score_lt : relation Score) `{!RelDecision score_lt}
    (ws : list Tagged) (s : gset Span) (order1 order2 : list Span)
    (ranks1 ranks2 : gmap nat Score) :
  StrictOrder score_lt → Trichotomy score_lt →
  new_gats_words (parser ws) = Some s →
  order1 ≡ₚ elements s → order2 ≡ₚ elements s →
  (∀ i j n, order1 !! i = Some n → order2 !! j = Some n →
            ranks1 !! i = ranks2 !! j) →
  top_keywords score_lt span_lt ranks1 order1
  = top_keywords score_lt span_lt ranks2 order2.
Proof.
  intros Hstrict Htri Hs H1 H2 Hsame.
  unfold new_gats_words in Hs.
  destruct (new_gats_filt (parser ws)) as [nf|] eqn:Hnf; simplify_eq/=.
  apply (top_keywords_order_independent score_lt span_lt span_start
           Hstrict Htri);
    [done|by rewrite H1, H2|by rewrite H1; apply NoDup_elements| |done].
  intros a b Ha Hb. rewrite H1 in Ha, Hb.
  apply elem_of_elements, elem_of_list_to_set in Ha, Hb.
  by apply (retained_digram_start_inj ws nf).
Qed.

Lemma ranked_digr_deterministic_witness :
  let nf := default [] (new_gats_filt (parser big_dog_twice)) in
  let order := elements (list_to_set nf : gset Span) in
  top_keywords Z.lt span_lt ({[0%nat := 1; 1%nat := 1]} : gmap nat Z) order
  = top_keywords Z.lt span_lt ({[0%nat := 1; 1%nat := 1]} : gmap nat Z)
                 (reverse order).
Proof.
  apply (ranked_digr_deterministic Z.lt big_dog_twice
           (list_to_set (default [] (new_gats_filt (parser big_dog_twice))))).
  - exact Z_lt_strict.
  - exact Z_lt_trichotomy.
  - unfold new_gats_words.
    assert (new_gats_filt (parser big_dog_twice)
            = Some (default [] (new_gats_filt (parser big_dog_twice)))) as ->
      by (vm_compute; reflexivity).
    reflexivity.
  - reflexivity.
  - apply reverse_Permutation.
  - intros i j n Hi Hj.
    assert (Hlen : length (elements
                     (list_to_set (default [] (new_gats_filt
                        (parser big_dog_twice))) : gset Span)) = 2%nat)
      by (vm_compute; reflexivity).
    apply lookup_lt_Some in Hi, Hj. rewrite length_reverse in Hj.
    rewrite Hlen in Hi, Hj.
    destruct i as [|[|i]], j as [|[|j]]; try lia; reflexivity.
Defined.
